(** * License manager dashboard: the list view model of [App.tsx]

    A shallow embedding of the computations of the [App] component
    (status derivation, filtering, sorting, paging, the page-index effects,
    authorization, list refresh and the dashboard counters), followed by the
    properties established for them.

    Conventions of the embedding.
    - JavaScript strings are byte strings.
    - A time value is an integral number of milliseconds since the epoch;
      [None] stands for the [NaN] time value of an [Invalid Date].
    - [new Date()] reads the ambient wall clock.  The clock is the
      environment of a reader monad ([Ambient]); one synchronous
      recomputation sees one reading.
    - [new Date(s)] and [localeCompare] are platform functions; the
      development is parametric in them (Section variables [Date_parse] and
      [localeCompare]).  [Js.isoParse] and [Js.byteCompare] are concrete
      instances used in the worked examples.
    - [toLowerCase], [trim] and the order in which [sort] leaves an array
      when its comparator is not a consistent one depend on the engine; the
      development is parametric in a [Js.Engine].  [Demo.engine] is the
      instance used in the worked examples. *)

From Stdlib Require Import ZArith QArith Qround List String Ascii Bool Lia.
From Stdlib Require Import Permutation Sorted.
Import ListNotations.

Local Open Scope string_scope.
Local Open Scope list_scope.
Local Open Scope Z_scope.

(* ================================================================= *)
(** ** JavaScript built-ins used by the component *)

Module Js.

(** [s.startsWith(sub)] and [s.includes(sub)]. *)
Fixpoint startsWith (s sub : string) {struct sub} : bool :=
  match sub, s with
  | EmptyString, _ => true
  | String _ _, EmptyString => false
  | String b sub', String a s' => Ascii.eqb a b && startsWith s' sub'
  end.

Fixpoint includes (s sub : string) : bool :=
  startsWith s sub ||
  match s with
  | EmptyString => false
  | String _ s' => includes s' sub
  end.

(** [s.split(sep)] for a one-character separator; the empty string splits
    into one empty piece. *)
Fixpoint split (sep : ascii) (s : string) : list string :=
  match s with
  | EmptyString => [EmptyString]
  | String c s' =>
      if Ascii.eqb c sep then EmptyString :: split sep s'
      else match split sep s' with
           | [] => [String c EmptyString]
           | piece :: pieces => String c piece :: pieces
           end
  end.

(** Truthiness of a [string | null] value: [null] and the empty string are
    falsy. *)
Definition truthy (v : option string) : bool :=
  match v with
  | None => false
  | Some EmptyString => false
  | Some (String _ _) => true
  end.

(** [v || ''] for a [string | null] value. *)
Definition orEmpty (v : option string) : string :=
  match v with
  | Some (String c s) => String c s
  | _ => EmptyString
  end.

(** [Array.prototype.includes] on an array of strings. *)
Definition arrayIncludes (xs : list string) (x : string) : bool :=
  existsb (String.eqb x) xs.

(** [Array.prototype.indexOf]: the first index holding the value, or -1. *)
Section IndexOf.
Context {A : Type} (eqbA : A -> A -> bool).

Fixpoint indexOfFrom (i : Z) (xs : list A) (x : A) : Z :=
  match xs with
  | [] => -1
  | y :: ys => if eqbA y x then i else indexOfFrom (i + 1) ys x
  end.

Definition indexOf := indexOfFrom 0.
End IndexOf.

(** [Array.prototype.slice(start, end)]: a negative index counts from the
    end, and both indices are clipped to the array. *)
Definition relativeIndex (len i : Z) : Z :=
  if i <? 0 then Z.max (len + i) 0 else Z.min i len.

Definition slice {A : Type} (xs : list A) (start end_ : Z) : list A :=
  let len := Z.of_nat (List.length xs) in
  let k := relativeIndex len start in
  let final := relativeIndex len end_ in
  firstn (Z.to_nat (Z.max (final - k) 0)) (skipn (Z.to_nat k) xs).

(** A JavaScript number that is an integer or [NaN]. *)
Definition number := option Z.

Definition NaN : number := None.

Definition sub (a b : number) : number :=
  match a, b with
  | Some x, Some y => Some (x - y)
  | _, _ => NaN
  end.

Definition mul (a : number) (k : Z) : number := option_map (fun x => x * k) a.


(** [a < b] and [a > b]: false as soon as one side is [NaN]. *)
Definition lt (a b : number) : bool :=
  match a, b with
  | Some x, Some y => x <? y
  | _, _ => false
  end.

Definition gt (a b : number) : bool := lt b a.

(** [a / d] for an integer divisor, and [q <= bound] for an integer bound.
    The quotient is the exact rational: the correctly rounded quotient of
    the platform lies on the same side of an integer bound, since rounding
    is monotone and fixes the integers used here. *)
Definition div (a : number) (d : Z) : option Q :=
  option_map (fun x => (inject_Z x / inject_Z d)%Q) a.

Definition le (q : option Q) (bound : Z) : bool :=
  match q with
  | Some v => Qle_bool v (inject_Z bound)
  | None => false
  end.

(** [Array.prototype.sort(comparefn)].

    A [NaN] returned by the comparator counts as [+0].  When the comparator
    is a consistent comparator for the elements of the array, the language
    fixes the result: the elements in the comparator's order, tied
    elements in their input order.  That is [stableSort], the insertion
    sort in which an element moves right past the elements it is strictly
    greater than.  When the comparator is not consistent (it returns [NaN]
    for some pair, or it is not an ordering), the order is left to the
    engine ([sortOrder] of the [Engine]). *)
Section Sort.
Context {A : Type} (comparefn : A -> A -> number).

(** [a >CF b], [a <CF b] and [a =CF b]. *)
Definition isSame (v : number) : bool :=
  match v with
  | Some z => z =? 0
  | None => false
  end.

Definition after (a b : A) : bool := gt (comparefn a b) (Some 0).

Definition before (a b : A) : bool := lt (comparefn a b) (Some 0).

Definition same (a b : A) : bool := isSame (comparefn a b).

Fixpoint insert (x : A) (sorted : list A) : list A :=
  match sorted with
  | [] => [x]
  | y :: rest => if after x y then y :: insert x rest else x :: sorted
  end.

Definition stableSort (xs : list A) : list A := fold_right insert [] xs.

(** The comparator is a consistent comparator for the values [xs]: no
    result is [NaN], [=CF] is reflexive, symmetric and transitive, and
    [<CF] and [>CF] are transitive.  The results are tabulated first, a row
    and a column for each value, so that the comparator is not called
    again for every triple. *)
Definition consistent (xs : list A) : bool :=
  let rows := map (fun a => map (comparefn a) xs) xs in
  let columns := map (fun a => map (fun b => comparefn b a) xs) xs in
  forallb
    (fun '(a, (ra, ca)) =>
       same a a
       && forallb
            (fun '(ab, ba, rb) =>
               (isSame ab || lt ab (Some 0) || gt ab (Some 0))
               && (if isSame ab then isSame ba else true)
               && forallb
                    (fun '(ac, bc) =>
                       (if isSame ab then if isSame bc then isSame ac else true
                        else true)
                       && (if lt ab (Some 0)
                           then if lt bc (Some 0) then lt ac (Some 0) else true
                           else true)
                       && (if gt ab (Some 0)
                           then if gt bc (Some 0) then gt ac (Some 0) else true
                           else true))
                    (combine ra rb))
            (combine (combine ra ca) rows))
    (combine xs (combine rows columns)).
End Sort.

(** What the component takes from the engine beyond the functions above:
    [String.prototype.toLowerCase], [String.prototype.trim], and the order
    in which [Array.prototype.sort] leaves an array whose comparator is not
    consistent.  Lower-casing maps the empty string, and nothing else, to
    the empty string; the sort rearranges the array. *)
Record Engine : Type := {
  toLowerCase : string -> string;
  trim : string -> string;
  sortOrder : forall A : Type, (A -> A -> number) -> list A -> list A;
  toLowerCase_empty : forall s, toLowerCase s = "" <-> s = "";
  sortOrder_perm :
    forall (A : Type) (comparefn : A -> A -> number) (xs : list A),
      Permutation (sortOrder A comparefn xs) xs
}.

Definition sort (engine : Engine) {A : Type} (comparefn : A -> A -> number)
    (xs : list A) : list A :=
  if consistent comparefn xs then stableSort comparefn xs
  else sortOrder engine A comparefn xs.

(** The time value of the simplified ISO 8601 format that [toISOString]
    writes, [YYYY-MM-DDTHH:mm:ss.sssZ]; any other text is read as an
    [Invalid Date]. *)
Definition digitValue (c : ascii) : option Z :=
  let n := Z.of_nat (nat_of_ascii c) in
  if (48 <=? n) && (n <=? 57) then Some (n - 48) else None.

Fixpoint decimalFrom (acc : Z) (s : string) : option Z :=
  match s with
  | EmptyString => Some acc
  | String c s' =>
      match digitValue c with
      | Some d => decimalFrom (acc * 10 + d) s'
      | None => None
      end
  end.

Definition digitsAt (s : string) (pos len : nat) : option Z :=
  decimalFrom 0 (substring pos len s).

Definition charAt (s : string) (pos : nat) (c : ascii) : bool :=
  match get pos s with
  | Some a => Ascii.eqb a c
  | None => false
  end.

Definition isLeap (y : Z) : bool :=
  ((y mod 4 =? 0) && negb (y mod 100 =? 0)) || (y mod 400 =? 0).

Definition daysInMonth (y m : Z) : Z :=
  if m =? 2 then (if isLeap y then 29 else 28)
  else if (m =? 4) || (m =? 6) || (m =? 9) || (m =? 11) then 30 else 31.

(** Days from 1970-01-01 to the civil date [y]-[m]-[d]. *)
Definition daysFromCivil (y m d : Z) : Z :=
  let y' := if m <=? 2 then y - 1 else y in
  let era := y' / 400 in
  let yoe := y' - era * 400 in
  let mp := if 2 <? m then m - 3 else m + 9 in
  let doy := (153 * mp + 2) / 5 + d - 1 in
  let doe := yoe * 365 + yoe / 4 - yoe / 100 + doy in
  era * 146097 + doe - 719468.

Definition isoParse (s : string) : number :=
  if ((String.length s =? 24)%nat
      && charAt s 4 "-" && charAt s 7 "-" && charAt s 10 "T"
      && charAt s 13 ":" && charAt s 16 ":" && charAt s 19 "."
      && charAt s 23 "Z")
  then
    match digitsAt s 0 4, digitsAt s 5 2, digitsAt s 8 2,
          digitsAt s 11 2, digitsAt s 14 2, digitsAt s 17 2, digitsAt s 20 3 with
    | Some y, Some mo, Some d, Some h, Some mi, Some sec, Some ms =>
        if (1 <=? mo) && (mo <=? 12) && (1 <=? d) && (d <=? daysInMonth y mo)
           && (h <=? 23) && (mi <=? 59) && (sec <=? 59)
        then Some ((((daysFromCivil y mo d * 24 + h) * 60 + mi) * 60 + sec)
                   * 1000 + ms)
        else NaN
    | _, _, _, _, _, _, _ => NaN
    end
  else NaN.

(** A concrete comparator of strings: byte-wise lexicographic order. *)
Definition byteCompare (a b : string) : Z :=
  match String.compare a b with
  | Lt => -1
  | Eq => 0
  | Gt => 1
  end.

End Js.

(* ================================================================= *)
(** ** Data model ([types.ts] and the types of [App.tsx]) *)

Record License : Type := {
  license_key : string;
  expires_at : string;
  hwid : option string
}.

(** The strings returned by [getLicenseStatus]. *)
Inductive Status : Type := expired | expiring | active | available.

(** The values of the status filter: ['all' | 'active' | 'expired' |
    'expiring']. *)
Inductive FilterStatus : Type :=
  show_all | show_active | show_expired | show_expiring.

Inductive SortField : Type := by_license_key | by_status | by_hwid | by_expires_at.

Inductive SortDirection : Type := asc | desc.

Record SortConfig : Type := {
  field : SortField;
  direction : SortDirection
}.

Definition Status_eqb (a b : Status) : bool :=
  match a, b with
  | expired, expired | expiring, expiring
  | active, active | available, available => true
  | _, _ => false
  end.

(** The dashboard counters computed by [stats]. *)
Module Stats.
Record t : Type := {
  total : Z;
  active : Z;
  expired : Z;
  available : Z
}.
End Stats.

(** The ambient environment of a call: what the code reads without being
    passed it.  [wallClock] is the reading that [new Date()] returns. *)
Record Env : Type := { wallClock : Z }.

Definition Ambient (A : Type) : Type := Env -> A.

Definition ret {A : Type} (a : A) : Ambient A := fun _ => a.

Definition bind {A B : Type} (m : Ambient A) (k : A -> Ambient B) : Ambient B :=
  fun env => k (m env) env.

Notation "x <- m ;; k" := (bind m (fun x => k))
  (at level 61, m at next level, right associativity).

(** [new Date()] *)
Definition Date_now : Ambient Js.number := fun env => Some (wallClock env).

(** [Array.prototype.filter] with a callback that reads the environment. *)
Definition filterA {A : Type} (p : A -> Ambient bool) (xs : list A)
  : Ambient (list A) :=
  fun env => filter (fun x => p x env) xs.

(* ================================================================= *)
(** ** Component state, authorization, list refresh and login *)

(** *** Authorization *)

(** [User] of the authentication client; its e-mail address is optional. *)
Record User : Type := { email : option string }.

Record JsError : Type := { message : string }.

(** The outcome of an awaited call: the promise resolves or rejects. *)
Inductive Awaited (A : Type) : Type :=
| Resolved (value : A)
| Rejected (err : JsError).

Arguments Resolved {A} value.
Arguments Rejected {A} err.

(** The handle returned by [getSupabaseClient()], [None] for [null]. *)
Inductive Client : Type := supabase.

(** [adminEmails]; the argument is [import.meta.env.VITE_ADMIN_EMAILS]. *)
Definition adminEmails (engine : Js.Engine) (VITE_ADMIN_EMAILS : option string)
  : list string :=
  let raw := Js.orEmpty VITE_ADMIN_EMAILS in
  filter (fun entry => Js.truthy (Some entry))
         (map (fun email => Js.toLowerCase engine (Js.trim engine email))
              (Js.split "," raw)).

Definition isAuthorized (engine : Js.Engine) (user : option User)
    (adminEmails : list string) : bool :=
  match user with
  | None => false
  | Some u =>
      if negb (Js.truthy (email u)) then false
      else if (List.length adminEmails =? 0)%nat then true
      else Js.arrayIncludes adminEmails
             (Js.toLowerCase engine (Js.orEmpty (email u)))
  end.

(** *** Component state ([useState]) *)

Record LoginForm : Type := { form_email : string; form_password : string }.

Record AppState : Type := {
  licenses : list License;
  loading : bool;
  error : option string;
  searchTerm : string;
  filterStatus : FilterStatus;
  currentPage : Z;
  pageSize : Z;
  sortConfig : SortConfig;
  loginForm : LoginForm;
  authLoading : bool;
  authError : option string
}.

Definition initialState : AppState :=
  {| licenses := []; loading := false; error := None;
     searchTerm := ""; filterStatus := show_all;
     currentPage := 1; pageSize := 10;
     sortConfig := {| field := by_expires_at; direction := asc |};
     loginForm := {| form_email := ""; form_password := "" |};
     authLoading := false; authError := None |}.

Definition setLicenses (v : list License) (s : AppState) : AppState :=
  {| licenses := v; loading := loading s; error := error s;
     searchTerm := searchTerm s; filterStatus := filterStatus s;
     currentPage := currentPage s; pageSize := pageSize s;
     sortConfig := sortConfig s; loginForm := loginForm s;
     authLoading := authLoading s; authError := authError s |}.

Definition setLoading (v : bool) (s : AppState) : AppState :=
  {| licenses := licenses s; loading := v; error := error s;
     searchTerm := searchTerm s; filterStatus := filterStatus s;
     currentPage := currentPage s; pageSize := pageSize s;
     sortConfig := sortConfig s; loginForm := loginForm s;
     authLoading := authLoading s; authError := authError s |}.

Definition setError (v : option string) (s : AppState) : AppState :=
  {| licenses := licenses s; loading := loading s; error := v;
     searchTerm := searchTerm s; filterStatus := filterStatus s;
     currentPage := currentPage s; pageSize := pageSize s;
     sortConfig := sortConfig s; loginForm := loginForm s;
     authLoading := authLoading s; authError := authError s |}.

Definition setSearchTerm (v : string) (s : AppState) : AppState :=
  {| licenses := licenses s; loading := loading s; error := error s;
     searchTerm := v; filterStatus := filterStatus s;
     currentPage := currentPage s; pageSize := pageSize s;
     sortConfig := sortConfig s; loginForm := loginForm s;
     authLoading := authLoading s; authError := authError s |}.

Definition setFilterStatus (v : FilterStatus) (s : AppState) : AppState :=
  {| licenses := licenses s; loading := loading s; error := error s;
     searchTerm := searchTerm s; filterStatus := v;
     currentPage := currentPage s; pageSize := pageSize s;
     sortConfig := sortConfig s; loginForm := loginForm s;
     authLoading := authLoading s; authError := authError s |}.

Definition setCurrentPage (v : Z) (s : AppState) : AppState :=
  {| licenses := licenses s; loading := loading s; error := error s;
     searchTerm := searchTerm s; filterStatus := filterStatus s;
     currentPage := v; pageSize := pageSize s;
     sortConfig := sortConfig s; loginForm := loginForm s;
     authLoading := authLoading s; authError := authError s |}.

Definition setPageSize (v : Z) (s : AppState) : AppState :=
  {| licenses := licenses s; loading := loading s; error := error s;
     searchTerm := searchTerm s; filterStatus := filterStatus s;
     currentPage := currentPage s; pageSize := v;
     sortConfig := sortConfig s; loginForm := loginForm s;
     authLoading := authLoading s; authError := authError s |}.

Definition setSortConfig (v : SortConfig) (s : AppState) : AppState :=
  {| licenses := licenses s; loading := loading s; error := error s;
     searchTerm := searchTerm s; filterStatus := filterStatus s;
     currentPage := currentPage s; pageSize := pageSize s;
     sortConfig := v; loginForm := loginForm s;
     authLoading := authLoading s; authError := authError s |}.

Definition setLoginForm (v : LoginForm) (s : AppState) : AppState :=
  {| licenses := licenses s; loading := loading s; error := error s;
     searchTerm := searchTerm s; filterStatus := filterStatus s;
     currentPage := currentPage s; pageSize := pageSize s;
     sortConfig := sortConfig s; loginForm := v;
     authLoading := authLoading s; authError := authError s |}.

Definition setAuthLoading (v : bool) (s : AppState) : AppState :=
  {| licenses := licenses s; loading := loading s; error := error s;
     searchTerm := searchTerm s; filterStatus := filterStatus s;
     currentPage := currentPage s; pageSize := pageSize s;
     sortConfig := sortConfig s; loginForm := loginForm s;
     authLoading := v; authError := authError s |}.

Definition setAuthError (v : option string) (s : AppState) : AppState :=
  {| licenses := licenses s; loading := loading s; error := error s;
     searchTerm := searchTerm s; filterStatus := filterStatus s;
     currentPage := currentPage s; pageSize := pageSize s;
     sortConfig := sortConfig s; loginForm := loginForm s;
     authLoading := authLoading s; authError := v |}.

(** [try { body } catch (err) { handler } finally { cleanup }] over the
    component state: the body either completes with a state or throws. *)
Definition tryCatchFinally (body : AppState -> JsError + AppState)
    (handler : JsError -> AppState -> AppState)
    (cleanup : AppState -> AppState) (s : AppState) : AppState :=
  cleanup (match body s with
           | inr s' => s'
           | inl err => handler err s
           end).

(** *** List refresh *)

(** What the query [from('licenses').select('*').order(...)] resolves to. *)
Record QueryResult : Type := {
  resp_data : option (list License);
  resp_error : option JsError
}.

(** [fetchLicenses]; [response] is the outcome of the awaited query. *)
Definition fetchLicenses (isAuthorized : bool) (client : option Client)
    (response : Awaited QueryResult) (s : AppState) : AppState :=
  if negb isAuthorized then s
  else match client with
       | None => s
       | Some _ =>
           tryCatchFinally
             (fun s1 =>
                match response with
                | Rejected err => inl err
                | Resolved r =>
                    match resp_error r with
                    | Some err => inl err
                    | None =>
                        let data := match resp_data r with
                                    | Some rows => rows
                                    | None => []
                                    end in
                        inr (setError None (setLicenses data s1))
                    end
                end)
             (fun err s1 => setError (Some (message err)) s1)
             (setLoading false)
             (setLoading true s)
       end.

(** *** Login *)

(** The calls made on the authentication client, in order. *)
Inductive AuthCall : Type :=
| signInWithPassword (email password : string)
| signOut.

(** What [signInWithPassword] resolves to: [error] and [data.user]. *)
Record SignInResult : Type := {
  signInError : option JsError;
  signedInUser : option User
}.

Definition accessDenied : string := "Tài khoản không có quyền truy cập.".

(** [handleLogin]; [response] is the outcome of the awaited sign-in and
    [signedOut] the outcome of the awaited sign-out, when one is made (its
    value is not used; a rejection is caught like any other).  The result
    is the new state with the calls made on the client. *)
Definition handleLogin (engine : Js.Engine) (client : option Client)
    (adminEmails : list string) (response : Awaited SignInResult)
    (signedOut : Awaited unit) (s : AppState)
  : AppState * list AuthCall :=
  match client with
  | None => (s, [])
  | Some _ =>
      let s0 := setAuthError None (setAuthLoading true s) in
      let typed :=
        Js.toLowerCase engine (Js.trim engine (form_email (loginForm s))) in
      let call := signInWithPassword typed (form_password (loginForm s)) in
      match response with
      | Rejected err =>
          (setAuthLoading false (setAuthError (Some (message err)) s0), [call])
      | Resolved r =>
          match signInError r with
          | Some err =>
              (setAuthLoading false (setAuthError (Some (message err)) s0), [call])
          | None =>
              let signedInEmail :=
                match signedInUser r with
                | Some u => option_map (Js.toLowerCase engine) (email u)
                | None => None
                end in
              if Js.truthy signedInEmail
                 && (0 <? List.length adminEmails)%nat
                 && negb (Js.arrayIncludes adminEmails (Js.orEmpty signedInEmail))
              then
                let s1 := setAuthError (Some accessDenied) s0 in
                match signedOut with
                | Resolved _ => (setAuthLoading false s1, [call; signOut])
                | Rejected err =>
                    (setAuthLoading false
                       (setAuthError (Some (message err)) s1),
                     [call; signOut])
                end
              else (setAuthLoading false
                      (setLoginForm
                         {| form_email := form_email (loginForm s0);
                            form_password := "" |} s0),
                    [call])
          end
      end
  end.

(* ================================================================= *)
(** ** Connection service ([services/supabase.ts]), table rows and requests *)

(** [SupabaseCredentials] ([types.ts]). *)
Module Credentials.
Record t : Type := { url : string; key : string }.
End Credentials.

(** The client that [createClient(url, key)] makes. *)
Record SupabaseClient : Type := { supabaseUrl : string; supabaseKey : string }.

(** [localStorage]: the item stored under each name, if any. *)
Definition Storage : Type := string -> option string.

Definition getItem (name : string) (store : Storage) : option string :=
  store name.

Definition setItem (name value : string) (store : Storage) : Storage :=
  fun n => if String.eqb n name then Some value else store n.

Definition removeItem (name : string) (store : Storage) : Storage :=
  fun n => if String.eqb n name then None else store n.

(** What the functions of the service read and write: the module variable
    [supabaseInstance] and the browser's [localStorage]. *)
Record Service : Type := {
  supabaseInstance : option SupabaseClient;
  localStorage : Storage
}.

Definition getSupabaseClient (sv : Service) : option SupabaseClient :=
  supabaseInstance sv.

Definition getStoredCredentials (sv : Service) : option Credentials.t :=
  let url := getItem "sb_url" (localStorage sv) in
  let key := getItem "sb_key" (localStorage sv) in
  if Js.truthy url && Js.truthy key
  then Some {| Credentials.url := Js.orEmpty url;
               Credentials.key := Js.orEmpty key |}
  else None.

Definition saveCredentials (creds : Credentials.t) (sv : Service) : Service :=
  {| supabaseInstance := supabaseInstance sv;
     localStorage :=
       setItem "sb_key" (Credentials.key creds)
               (setItem "sb_url" (Credentials.url creds) (localStorage sv)) |}.

Definition clearCredentials (sv : Service) : Service :=
  {| supabaseInstance := None;
     localStorage := removeItem "sb_key" (removeItem "sb_url" (localStorage sv)) |}.

(** The result of [initSupabase]: [{ success, error? }]. *)
Module InitResult.
Record t : Type := { success : bool; error : option string }.
End InitResult.

(** The component with its connection flag and the service it uses. *)
Record Shell : Type := {
  component : AppState;
  isConnected : bool;
  service : Service
}.

(** [result.error || fallback] *)
Definition orElse (v : option string) (fallback : string) : string :=
  if Js.truthy v then Js.orEmpty v else fallback.

(** The [newLicense] form and the flag of the dialog that holds it. *)
Module NewLicense.
Record t : Type := { key : string; expiryDate : string; expiryTime : string }.
End NewLicense.

Record AddDialog : Type := {
  isAddModalOpen : bool;
  newLicense : NewLicense.t
}.

Definition emptyForm : NewLicense.t :=
  {| NewLicense.key := ""; NewLicense.expiryDate := "";
     NewLicense.expiryTime := "23:59" |}.

(** The requests sent to the [licenses] table. *)
Inductive StoreRequest : Type :=
| insertLicense (row : License)
| updateHwidNull (license_key : string)
| deleteLicense (license_key : string).

(** What a handler does besides changing state: the [confirm] dialogs it
    shows, the requests it sends, the [alert]s it raises, and whether it
    calls [fetchLicenses] at the end. *)
Record Effects : Type := {
  prompts : list string;
  requests : list StoreRequest;
  alerts : list string;
  refetch : bool
}.

Definition noEffects : Effects :=
  {| prompts := []; requests := []; alerts := []; refetch := false |}.

Definition confirmUnlock : string :=
  "Bạn có chắc chắn muốn mở khóa license này? Người dùng sẽ có thể liên kết với máy mới.".

Definition confirmDelete : string :=
  "Hành động này không thể hoàn tác. Xóa license?".

(** [handleResetHWID] and [handleDelete] differ in the dialog and the
    request only; [response] is the outcome of the awaited request, its
    [error] field. *)
Definition guardedRequest (question : string) (request : StoreRequest)
    (isAuthorized : bool) (client : option SupabaseClient) (confirmed : bool)
    (response : Awaited (option JsError)) : Effects :=
  if negb isAuthorized then noEffects
  else match client with
       | None => noEffects
       | Some _ =>
           if negb confirmed
           then {| prompts := [question]; requests := []; alerts := [];
                   refetch := false |}
           else match response with
                | Resolved None =>
                    {| prompts := [question]; requests := [request];
                       alerts := []; refetch := true |}
                | Resolved (Some err) | Rejected err =>
                    {| prompts := [question]; requests := [request];
                       alerts := [message err]; refetch := false |}
                end
       end.

Definition handleResetHWID (key : string) :=
  guardedRequest confirmUnlock (updateHwidNull key).

Definition handleDelete (key : string) :=
  guardedRequest confirmDelete (deleteLicense key).

(** [handleLogout] *)
Definition handleLogout (client : option SupabaseClient) (s : AppState)
  : AppState * list AuthCall :=
  match client with
  | None => (s, [])
  | Some _ =>
      (setLoginForm {| form_email := ""; form_password := "" |} s, [signOut])
  end.

(** A row of the table: the status badge, the text of the hardware cell
    ([None] for the placeholder), whether the expiry is highlighted, and
    whether the unlock button is disabled. *)
Inductive BadgeColor : Type := green | red | yellow | blue.

Record Row : Type := {
  badgeColor : BadgeColor;
  badgeText : string;
  hwidCell : option string;
  expiryHighlighted : bool;
  unlockDisabled : bool
}.

(* ================================================================= *)
(** ** Sample data for the worked examples *)

Module Demo.

(** *** An engine for the worked examples

    Lower-casing of the letters A to Z and trimming of TAB, LF, VT, FF, CR
    and SPACE, which is what [toLowerCase] and [trim] do on ASCII text. *)
Definition lowerChar (c : ascii) : ascii :=
  let n := nat_of_ascii c in
  if ((65 <=? n) && (n <=? 90))%nat then ascii_of_nat (n + 32) else c.

Fixpoint lowerAscii (s : string) : string :=
  match s with
  | EmptyString => EmptyString
  | String c s' => String (lowerChar c) (lowerAscii s')
  end.

Definition isSpace (c : ascii) : bool :=
  let n := nat_of_ascii c in
  (((9 <=? n) && (n <=? 13)) || (n =? 32))%nat.

Fixpoint trimStart (s : string) : string :=
  match s with
  | EmptyString => EmptyString
  | String c s' => if isSpace c then trimStart s' else s
  end.

Fixpoint trimEnd (s : string) : string :=
  match s with
  | EmptyString => EmptyString
  | String c s' =>
      match trimEnd s' with
      | EmptyString => if isSpace c then EmptyString else String c EmptyString
      | t => String c t
      end
  end.

Definition trimAscii (s : string) : string := trimEnd (trimStart s).

(** The sort order of V8 for an array of fewer than 64 elements
    ([CountAndMakeRun] and [BinaryInsertionSort] of its [array-sort.tq]):
    the longest run at the start of the array is found, non-descending or
    strictly descending, and a descending run is reversed; then each
    further element is put into the part before it at the place a binary
    search gives. *)
Section RunOrder.
Context {A : Type} (comparefn : A -> A -> Js.number).

Definition compare (x y : A) : Z :=
  match comparefn x y with
  | Some v => v
  | None => 0
  end.

(** The run continued after [previous], and the elements after the run. *)
Fixpoint runTail (descending : bool) (previous : A) (xs : list A)
  : list A * list A :=
  match xs with
  | [] => ([], [])
  | current :: rest =>
      let order := compare current previous in
      if (if descending then 0 <=? order else order <? 0) then ([], xs)
      else let '(run, others) := runTail descending current rest in
           (current :: run, others)
  end.

Definition countAndMakeRun (xs : list A) : list A * list A :=
  match xs with
  | first :: second :: rest =>
      let descending := compare second first <? 0 in
      let '(run, others) := runTail descending second rest in
      let whole := first :: second :: run in
      (if descending then rev whole else whole, others)
  | _ => (xs, [])
  end.

(** The binary search for the place of [pivot] in [sorted], between the
    indices [left] and [right]. *)
Fixpoint insertionPoint (fuel : nat) (pivot : A) (sorted : list A)
    (left right : nat) : nat :=
  match fuel with
  | O => left
  | S fuel' =>
      if (left <? right)%nat
      then
        let mid := (left + Nat.div2 (right - left))%nat in
        match nth_error sorted mid with
        | Some m =>
            if compare pivot m <? 0
            then insertionPoint fuel' pivot sorted left mid
            else insertionPoint fuel' pivot sorted (S mid) right
        | None => left
        end
      else left
  end.

Definition binaryInsert (sorted : list A) (pivot : A) : list A :=
  let n := List.length sorted in
  let place := insertionPoint n pivot sorted 0 n in
  firstn place sorted ++ pivot :: skipn place sorted.

Definition runOrder (xs : list A) : list A :=
  let '(run, others) := countAndMakeRun xs in
  fold_left binaryInsert others run.

Lemma runTail_app (descending : bool) (previous : A) (xs : list A) :
  fst (runTail descending previous xs) ++ snd (runTail descending previous xs)
  = xs.
Proof.
  revert previous. induction xs as [|current rest IH]; intros previous;
    [reflexivity |].
  cbn [runTail].
  destruct (if descending then _ else _); [reflexivity |].
  specialize (IH current). destruct (runTail descending current rest).
  cbn [fst snd app] in *. now rewrite IH.
Qed.

Lemma countAndMakeRun_perm (xs : list A) :
  Permutation (fst (countAndMakeRun xs) ++ snd (countAndMakeRun xs)) xs.
Proof.
  destruct xs as [|first [|second rest]]; cbn [countAndMakeRun fst snd];
    rewrite ?app_nil_r; try reflexivity.
  pose proof (runTail_app (compare second first <? 0) second rest) as Hrun.
  destruct (runTail _ second rest) as [run others]. cbn [fst snd] in *.
  rewrite <- Hrun.
  change (first :: second :: run ++ others)
    with ((first :: second :: run) ++ others).
  apply Permutation_app_tail.
  destruct (compare second first <? 0); [| reflexivity].
  symmetry. apply Permutation_rev.
Qed.

Lemma binaryInsert_perm (sorted : list A) (pivot : A) :
  Permutation (binaryInsert sorted pivot) (pivot :: sorted).
Proof.
  unfold binaryInsert.
  set (place := insertionPoint _ _ _ _ _).
  rewrite <- (firstn_skipn place sorted) at 3.
  symmetry. apply Permutation_middle.
Qed.

Lemma fold_binaryInsert_perm (others run : list A) :
  Permutation (fold_left binaryInsert others run) (run ++ others).
Proof.
  revert run. induction others as [|x others IH]; intros run; cbn [fold_left].
  - now rewrite app_nil_r.
  - rewrite IH, binaryInsert_perm. cbn [app]. apply Permutation_middle.
Qed.

Lemma runOrder_perm (xs : list A) : Permutation (runOrder xs) xs.
Proof.
  unfold runOrder. pose proof (countAndMakeRun_perm xs) as Hrun.
  destruct (countAndMakeRun xs) as [run others]. cbn [fst snd] in Hrun.
  now rewrite fold_binaryInsert_perm.
Qed.
End RunOrder.

Lemma lowerAscii_empty (s : string) : lowerAscii s = "" <-> s = "".
Proof. destruct s; cbn; split; congruence. Qed.

Definition engine : Js.Engine :=
  {| Js.toLowerCase := lowerAscii;
     Js.trim := trimAscii;
     Js.sortOrder := @runOrder;
     Js.toLowerCase_empty := lowerAscii_empty;
     Js.sortOrder_perm := @runOrder_perm |}.

(** *** Sample data *)


(** 2030-01-01, as [toISOString] writes it. *)
Definition year2030 : string := "2030-01-01T00:00:00.000Z".

(** An unbound license that expires in 2030. *)
Definition unbound (key : string) : License :=
  {| license_key := key; expires_at := year2030; hwid := None |}.

(** 25 licenses: 15 keys with an A, 5 with a B, 5 with a C. *)
Definition records25 : list License :=
  map unbound
      ["A01"; "A02"; "A03"; "A04"; "A05"; "A06"; "A07"; "A08"; "A09"; "A10";
       "A11"; "A12"; "A13"; "A14"; "A15";
       "B01"; "B02"; "B03"; "B04"; "B05";
       "C01"; "C02"; "C03"; "C04"; "C05"].

(** 2026-01-01T00:00:00.000Z and 2030-03-17T17:46:40.000Z on the clock. *)
Definition in2026 : Env := {| wallClock := 1767225600000 |}.

Definition in2030 : Env := {| wallClock := 1900000000000 |}.

(** A license whose [hwid] is the empty string. *)
Definition emptyHwid : License :=
  {| license_key := "K1"; expires_at := year2030; hwid := Some "" |}.

(** A license bound to a machine that expires three days after [in2026]. *)
Definition boundSoon : License :=
  {| license_key := "B2"; expires_at := "2026-01-04T00:00:00.000Z";
     hwid := Some "xyz" |}.

(** A license bound to a machine that expired a day before [in2026]. *)
Definition boundExpired : License :=
  {| license_key := "E5"; expires_at := "2025-12-31T00:00:00.000Z";
     hwid := Some "abc" |}.

(** An unbound license that expired a day before [in2026]. *)
Definition unboundExpired : License :=
  {| license_key := "A1"; expires_at := "2025-12-31T00:00:00.000Z";
     hwid := None |}.

(** Seven unbound licenses: they expire on the 5th, 1st, 2nd and 3rd of
    February 2026, on no date at all, and two of them on the 4th. *)
Definition expiring (key day : string) : License :=
  {| license_key := key;
     expires_at := ("2026-02-0" ++ day ++ "T00:00:00.000Z")%string;
     hwid := None |}.



(** A browser in which an address is a valid URL when it starts with
    [http], and [createClient] always returns. *)
Definition validUrl (s : string) : bool := Js.startsWith s "http".

Definition createClient (url key : string) : JsError + SupabaseClient :=
  inr {| supabaseUrl := url; supabaseKey := key |}.

(** The component before [initConnection] ran, with nothing stored. *)
Definition freshShell : Shell :=
  {| component := initialState; isConnected := false;
     service := {| supabaseInstance := None; localStorage := fun _ => None |} |}.

(** [Date.parse] in the UTC time zone: a date-time without a zone is read
    as UTC. *)
Definition utcParse (s : string) : Js.number :=
  match Js.isoParse s with
  | Some t => Some t
  | None => Js.isoParse (s ++ ".000Z")
  end.

(** The add dialog filled in for the last minute of 2030-01-01, and a
    clock that writes that instant. *)
Definition addForm : AddDialog :=
  {| isAddModalOpen := true;
     newLicense := {| NewLicense.key := "KEY-1";
                      NewLicense.expiryDate := "2030-01-01";
                      NewLicense.expiryTime := "23:59" |} |}.

Definition lastMinute : Z := 1893542340000.

Definition isoOf (t : Z) : string := "2030-01-01T23:59:00.000Z".

End Demo.

(* ================================================================= *)
(** ** The component's computations *)

Section App.

Set Default Proof Using "Type".

(** [new Date(s)]: the time value of the text, [NaN] when it does not parse. *)
Variable Date_parse : string -> Js.number.

(** [a.localeCompare(b)]: negative, zero or positive. *)
Variable localeCompare : string -> string -> Z.

(** The engine: [toLowerCase], [trim], and the sort order for a comparator
    that is not consistent. *)
Variable engine : Js.Engine.

Definition msPerDay : Z := 1000 * 60 * 60 * 24.

Definition getLicenseStatus (license : License) : Ambient Status :=
  now <- Date_now ;;
  let expiryDate := Date_parse (expires_at license) in
  let isExpired := Js.lt expiryDate now in
  let diffTime := Js.sub expiryDate now in
  let diffDays := Js.div diffTime msPerDay in
  let isExpiringSoon := negb isExpired && Js.le diffDays 7 in
  ret (if isExpired then expired
       else if isExpiringSoon then expiring
       else if Js.truthy (hwid license) then active
       else available).

(** The callback of [licenses.filter] in [filteredLicenses]. *)
Definition keepLicense (searchTerm : string) (filterStatus : FilterStatus)
    (l : License) : Ambient bool :=
  let matchesSearch :=
    Js.includes (Js.toLowerCase engine (license_key l))
                (Js.toLowerCase engine searchTerm)
    || match hwid l with
       | Some h =>
           Js.truthy (Some h)
           && Js.includes (Js.toLowerCase engine h)
                          (Js.toLowerCase engine searchTerm)
       | None => false
       end in
  if negb matchesSearch then ret false
  else
    now <- Date_now ;;
    let expiryDate := Date_parse (expires_at l) in
    let isExpired := Js.lt expiryDate now in
    let diffTime := Js.sub expiryDate now in
    let diffDays := Js.div diffTime msPerDay in
    let isExpiringSoon := negb isExpired && Js.le diffDays 7 in
    ret (match filterStatus with
         | show_active => negb isExpired
         | show_expired => isExpired
         | show_expiring => isExpiringSoon
         | show_all => true
         end).

Definition filteredLicenses (licenses : list License) (searchTerm : string)
    (filterStatus : FilterStatus) : Ambient (list License) :=
  filterA (keepLicense searchTerm filterStatus) licenses.

(** The rank table of the status comparator. *)
Definition order : list Status := [available; active; expiring; expired].

(** The comparator passed to [sorted.sort]. *)
Definition compareLicenses (sortConfig : SortConfig) (a b : License)
  : Ambient Js.number :=
  let dirMultiplier := match direction sortConfig with asc => 1 | desc => -1 end in
  match field sortConfig with
  | by_license_key =>
      ret (Js.mul (Some (localeCompare (license_key a) (license_key b)))
                  dirMultiplier)
  | by_hwid =>
      ret (Js.mul (Some (localeCompare (Js.orEmpty (hwid a)) (Js.orEmpty (hwid b))))
                  dirMultiplier)
  | by_status =>
      sa <- getLicenseStatus a ;;
      sb <- getLicenseStatus b ;;
      let diff := Js.indexOf Status_eqb order sa - Js.indexOf Status_eqb order sb in
      ret (Js.mul (Some diff) dirMultiplier)
  | by_expires_at =>
      ret (Js.mul (Js.sub (Date_parse (expires_at a)) (Date_parse (expires_at b)))
                  dirMultiplier)
  end.

Definition sortedLicenses (filtered : list License) (sortConfig : SortConfig)
  : Ambient (list License) :=
  fun env =>
    Js.sort engine (fun a b => compareLicenses sortConfig a b env) filtered.

(** [Math.max(1, Math.ceil(sortedLicenses.length / pageSize))].  The page
    size is one of 10, 25 and 50; the quotient is taken in the rationals. *)
Definition totalPages (sorted : list License) (pageSize : Z) : Z :=
  Z.max 1 (Qceiling (inject_Z (Z.of_nat (List.length sorted)) / inject_Z pageSize)).

Definition paginatedLicenses (sorted : list License) (currentPage pageSize : Z)
  : list License :=
  let startIdx := (currentPage - 1) * pageSize in
  Js.slice sorted startIdx (startIdx + pageSize).

Definition isNull (v : option string) : bool :=
  match v with None => true | Some _ => false end.

Definition count {A : Type} (p : A -> bool) (xs : list A) : Z :=
  Z.of_nat (List.length (filter p xs)).

Definition stats (licenses : list License) : Ambient Stats.t :=
  now <- Date_now ;;
  ret {| Stats.total := Z.of_nat (List.length licenses);
         Stats.active := count (fun l => negb (isNull (hwid l))) licenses;
         Stats.expired :=
           count (fun l => Js.lt (Date_parse (expires_at l)) now) licenses;
         Stats.available :=
           count (fun l => isNull (hwid l)
                           && Js.gt (Date_parse (expires_at l)) now) licenses |}.

(** *** Rendering, memoised values and effects

    The part of React that the page index depends on.
    - A render computes from the state it is given; a [useMemo] value is
      recomputed when one of its dependencies differs from the previous
      render, and kept otherwise.  A replaced array or object is a new
      dependency value even when its contents are equal.
    - After a render is committed, each [useEffect] whose dependencies
      differ from the previous render runs, in the order of declaration,
      with the values of the render that declared it.
    - The state updates queued by the effects are applied in order; when the
      state changed, the component renders again. *)

Definition FilterStatus_eqb (a b : FilterStatus) : bool :=
  match a, b with
  | show_all, show_all | show_active, show_active
  | show_expired, show_expired | show_expiring, show_expiring => true
  | _, _ => false
  end.

Definition SortField_eqb (a b : SortField) : bool :=
  match a, b with
  | by_license_key, by_license_key | by_status, by_status
  | by_hwid, by_hwid | by_expires_at, by_expires_at => true
  | _, _ => false
  end.

(** What a render leaves behind: the state it rendered and the values held
    by the [filteredLicenses] and [sortedLicenses] memo hooks. *)
Record Rendered : Type := {
  state : AppState;
  memoFiltered : list License;
  memoSorted : list License
}.

(** [totalPages] as the render computed it. *)
Definition renderedTotalPages (r : Rendered) : Z :=
  totalPages (memoSorted r) (pageSize (state r)).

(** The state changes a user or a finished refresh can cause. *)
Inductive Action : Type :=
| TypeSearch (value : string)
| SelectFilter (value : FilterStatus)
| SelectPageSize (value : Z)
| ReplaceLicenses (rows : list License)
| ClickPrev
| ClickNext
| ClickSort (f : SortField).

(** The updater passed to [setSortConfig] by [handleSort]. *)
Definition handleSort (f : SortField) (prev : SortConfig) : SortConfig :=
  if SortField_eqb (field prev) f
  then {| field := f;
          direction := match direction prev with asc => desc | desc => asc end |}
  else {| field := f; direction := asc |}.

(** The handler of an action, run with the values of the render [r]. *)
Definition perform (r : Rendered) (a : Action) : AppState :=
  let s := state r in
  match a with
  | TypeSearch value => setSearchTerm value s
  | SelectFilter value => setFilterStatus value s
  | SelectPageSize value => setPageSize value s
  | ReplaceLicenses rows => setLicenses rows s
  | ClickPrev => setCurrentPage (Z.max 1 (currentPage s - 1)) s
  | ClickNext =>
      setCurrentPage (Z.min (renderedTotalPages r) (currentPage s + 1)) s
  | ClickSort f => setSortConfig (handleSort f (sortConfig s)) s
  end.

Definition replacesLicenses (a : Action) : bool :=
  match a with ReplaceLicenses _ => true | _ => false end.

Definition replacesSortConfig (a : Action) : bool :=
  match a with ClickSort _ => true | _ => false end.

(** A render of state [s] after the render [prev]. *)
Definition render (prev : Rendered) (newLicenses newSortConfig : bool)
    (s : AppState) : Ambient Rendered :=
  fun env =>
    let refilter :=
      newLicenses
      || negb (String.eqb (searchTerm s) (searchTerm (state prev)))
      || negb (FilterStatus_eqb (filterStatus s) (filterStatus (state prev))) in
    let filtered :=
      if refilter
      then filteredLicenses (licenses s) (searchTerm s) (filterStatus s) env
      else memoFiltered prev in
    let sorted :=
      if refilter || newSortConfig
      then sortedLicenses filtered (sortConfig s) env
      else memoSorted prev in
    {| state := s; memoFiltered := filtered; memoSorted := sorted |}.

(** The body of the clamp effect: the [setCurrentPage] calls it makes. *)
Definition clampEffect (cur : Rendered) : list Z :=
  if renderedTotalPages cur <? currentPage (state cur)
  then [renderedTotalPages cur] else [].

(** The [setCurrentPage] calls queued by the effects of the render [cur]:
    the reset effect (dependencies [searchTerm], [filterStatus],
    [pageSize]) and then the clamp effect (dependencies [totalPages],
    [currentPage]). *)
Definition effects (prev cur : Rendered) : list Z :=
  let resetDeps :=
    negb (String.eqb (searchTerm (state cur)) (searchTerm (state prev)))
    || negb (FilterStatus_eqb (filterStatus (state cur)) (filterStatus (state prev)))
    || negb (pageSize (state cur) =? pageSize (state prev)) in
  let clampDeps :=
    negb (renderedTotalPages cur =? renderedTotalPages prev)
    || negb (currentPage (state cur) =? currentPage (state prev)) in
  (if resetDeps then [1] else []) ++ (if clampDeps then clampEffect cur else []).

(** Applying the queued updates in order. *)
Definition flush (queue : list Z) (s : AppState) : AppState :=
  fold_left (fun s' page => setCurrentPage page s') queue s.

(** Effects and re-renders after the render [cur], until an effect round
    leaves the state as it is (or the fuel is spent). *)
Fixpoint settle (fuel : nat) (prev cur : Rendered) : Ambient Rendered :=
  match fuel with
  | O => ret cur
  | S fuel' =>
      let s' := flush (effects prev cur) (state cur) in
      if currentPage s' =? currentPage (state cur) then ret cur
      else next <- render cur false false s' ;; settle fuel' cur next
  end.

(** An action on a settled view: the handler, the render, the effects. *)
Definition dispatch (r : Rendered) (a : Action) : Ambient Rendered :=
  first <- render r (replacesLicenses a) (replacesSortConfig a) (perform r a) ;;
  settle 2 r first.

(** The first render; every effect runs after it. *)
Definition mount : Ambient Rendered :=
  fun env =>
    let s := initialState in
    let filtered := filteredLicenses (licenses s) (searchTerm s) (filterStatus s) env in
    let first := {| state := s; memoFiltered := filtered;
                    memoSorted := sortedLicenses filtered (sortConfig s) env |} in
    let s' := flush ([1] ++ clampEffect first) s in
    if currentPage s' =? currentPage s then first
    else settle 2 first (render first false false s' env) env.

(** The page sizes offered by the selector. *)
Definition offered (a : Action) : Prop :=
  match a with
  | SelectPageSize value => In value [10; 25; 50]
  | _ => True
  end.

(** The settled views the component can be in. *)
Inductive reachable : Rendered -> Prop :=
| reach_mount : forall env, reachable (mount env)
| reach_dispatch : forall r a env,
    reachable r -> offered a -> reachable (dispatch r a env).

(** *** Connecting ([initSupabase], [initConnection]) *)

(** [initSupabase].  [validUrl s] tells that [new URL(s)] returns rather
    than throws; [createClient url key] is the client made, or the error
    thrown. *)
Definition initSupabase (validUrl : string -> bool)
    (createClient : string -> string -> JsError + SupabaseClient)
    (creds : Credentials.t) (sv : Service)
  : InitResult.t * Service :=
  let failure text :=
    ({| InitResult.success := false; InitResult.error := Some text |}, sv) in
  if negb (Js.truthy (Some (Credentials.url creds)))
  then failure "Supabase URL is required"
  else if negb (Js.truthy (Some (Credentials.key creds)))
  then failure "Supabase Anon Key is required"
  else if negb (validUrl (Credentials.url creds))
  then failure "Invalid supabaseUrl: Must be a valid HTTP or HTTPS URL."
  else match createClient (Credentials.url creds) (Credentials.key creds) with
       | inr client =>
           ({| InitResult.success := true; InitResult.error := None |},
            {| supabaseInstance := Some client;
               localStorage := localStorage sv |})
       | inl e =>
           failure (orElse (Some (message e))
                           "Unknown error initializing Supabase")
       end.

(** [initConnection], run once after the first render.  The arguments are
    the two environment variables and the two URL parameters. *)
Definition initConnection (validUrl : string -> bool)
    (createClient : string -> string -> JsError + SupabaseClient)
    (envUrl envKey urlParam keyParam : option string)
    (sh : Shell) : Shell :=
  let initSupabase := initSupabase validUrl createClient in
  let connected sv :=
    {| component := component sh; isConnected := true; service := sv |} in
  let failed text (sh0 : Shell) sv :=
    {| component := setError (Some text) (component sh0); isConnected := isConnected sh0;
       service := sv |} in
  let fromStorage (sh2 : Shell) :=
    match getStoredCredentials (service sh2) with
    | Some stored =>
        let '(result, sv) := initSupabase stored (service sh2) in
        if InitResult.success result
        then {| component := component sh2; isConnected := true; service := sv |}
        else {| component := component sh2; isConnected := isConnected sh2; service := sv |}
    | None => sh2
    end in
  let fromUrl (sh1 : Shell) :=
    if Js.truthy urlParam && Js.truthy keyParam
    then
      let creds := {| Credentials.url := Js.orEmpty urlParam;
                      Credentials.key := Js.orEmpty keyParam |} in
      let '(result, sv) := initSupabase creds (service sh1) in
      if InitResult.success result
      then {| component := component sh1; isConnected := true;
              service := saveCredentials creds sv |}
      else fromStorage
             (failed (orElse (InitResult.error result)
                        "Không thể kết nối với thông tin xác thực từ URL")
                     sh1 sv)
    else fromStorage sh1 in
  if Js.truthy envUrl && Js.truthy envKey
  then
    let creds := {| Credentials.url := Js.orEmpty envUrl;
                    Credentials.key := Js.orEmpty envKey |} in
    let '(result, sv) := initSupabase creds (service sh) in
    if InitResult.success result then connected sv
    else fromUrl
           (failed (orElse (InitResult.error result)
                      "Không thể kết nối với biến môi trường")
                   sh sv)
  else fromUrl sh.

(** *** Creating a license ([handleCreateLicense]) *)

(** [d.toISOString()]: [toISOString] for a valid date, and the
    [RangeError] thrown for an invalid one. *)
Definition Date_toISOString (toISOString : Z -> string) (invalidTime : JsError)
    (d : Js.number) : JsError + string :=
  match d with
  | Some t => inr (toISOString t)
  | None => inl invalidTime
  end.

Definition createFailed (err : JsError) : string :=
  ("Lỗi khi tạo license: " ++ message err)%string.

(** [response] is the outcome of the awaited insert, its [error] field. *)
Definition handleCreateLicense (toISOString : Z -> string)
    (invalidTime : JsError) (client : option SupabaseClient)
    (response : Awaited (option JsError)) (dialog : AddDialog)
  : AddDialog * Effects :=
  match client with
  | None => (dialog, noEffects)
  | Some _ =>
      let form := newLicense dialog in
      let finalDate :=
        Date_parse (NewLicense.expiryDate form ++ "T"
                    ++ NewLicense.expiryTime form ++ ":00")%string in
      let thrown err sent :=
        (dialog, {| prompts := []; requests := sent;
                    alerts := [createFailed err]; refetch := false |}) in
      match Date_toISOString toISOString invalidTime finalDate with
      | inl err => thrown err []
      | inr iso =>
          let row := {| license_key := NewLicense.key form;
                        expires_at := iso; hwid := None |} in
          match response with
          | Resolved None =>
              ({| isAddModalOpen := false; newLicense := emptyForm |},
               {| prompts := []; requests := [insertLicense row];
                  alerts := []; refetch := true |})
          | Resolved (Some err) | Rejected err =>
              thrown err [insertLicense row]
          end
      end
  end.

(** *** A row of the table *)

Definition renderRow (license : License) : Ambient Row :=
  now <- Date_now ;;
  let expiryDate := Date_parse (expires_at license) in
  let isExpired := Js.lt expiryDate now in
  let isUsed := Js.truthy (hwid license) in
  let diffTime := Js.sub expiryDate now in
  let diffDays := Js.div diffTime msPerDay in
  let isExpiringSoon := negb isExpired && Js.le diffDays 7 in
  ret {| badgeColor := if isExpired then red
                       else if isExpiringSoon then yellow
                       else if isUsed then green else blue;
         badgeText := if isExpired then "Đã hết hạn"
                      else if isExpiringSoon then "Sắp hết hạn"
                      else if isUsed then "Đang hoạt động" else "Có sẵn";
         hwidCell := if Js.truthy (hwid license)
                     then Some (substring 0 16 (Js.orEmpty (hwid license))
                                ++ "...")%string
                     else None;
         expiryHighlighted := isExpiringSoon;
         unlockDisabled := negb (Js.truthy (hwid license)) |}.

(** [paginatedLicenses] as the render computed it, and its rows. *)
Definition renderedPage (r : Rendered) : list License :=
  paginatedLicenses (memoSorted r) (currentPage (state r)) (pageSize (state r)).

(** *** The specification's vocabulary *)

(** [expires_at] denotes an instant strictly before [T]. *)
Definition expiresBefore (R : License) (T : Z) : Prop :=
  exists t, Date_parse (expires_at R) = Some t /\ t < T.

(** [expires_at] denotes an instant at most [span] milliseconds after [T]. *)
Definition expiresWithin (R : License) (T span : Z) : Prop :=
  exists t, Date_parse (expires_at R) = Some t /\ t - T <= span.

(** Seven days of elapsed time, in milliseconds. *)
Definition sevenDays : Z := 7 * 86400000.

(** The record carries a hardware identifier: non-null and non-empty. *)
Definition isBound (R : License) : Prop :=
  exists h, hwid R = Some h /\ h <> "".

(** [sub] occurs in [s]. *)
Definition Substring (sub s : string) : Prop :=
  exists pre post, s = (pre ++ sub ++ post)%string.

(** The search predicate, in the specification's words. *)
Definition matchesSearch (term : string) (R : License) : Prop :=
  Substring (Js.toLowerCase engine term) (Js.toLowerCase engine (license_key R))
  \/ exists h, hwid R = Some h
              /\ Substring (Js.toLowerCase engine term)
                           (Js.toLowerCase engine h).

(** The status predicate, in the specification's words: by the classifier. *)
Definition matchesStatus (f : FilterStatus) (R : License) (env : Env) : Prop :=
  match f with
  | show_all => True
  | show_active => getLicenseStatus R env <> expired
  | show_expired => getLicenseStatus R env = expired
  | show_expiring => getLicenseStatus R env = expiring
  end.

(** The elements of a list with the status [s], in the order of the list. *)
Definition classOf {A : Type} (status : A -> Status) (s : Status) (l : list A)
  : list A :=
  filter (fun a => Status_eqb (status a) s) l.


(** The records of a list that the classifier gives the status [s], in the
    order of the list. *)
Definition statusClass (env : Env) (s : Status) (l : list License) : list License :=
  classOf (fun R => getLicenseStatus R env) s l.

Definition byStatus (d : SortDirection) : SortConfig :=
  {| field := by_status; direction := d |}.


(** The pages for the indices [1 .. totalPages], in order. *)
Definition allPages (records : list License) (pageSize : Z) : list (list License) :=
  map (fun i => paginatedLicenses records (Z.of_nat i) pageSize)
      (seq 1 (Z.to_nat (totalPages records pageSize))).

(** The state variables a refresh does not touch. *)
Definition sameView (s s' : AppState) : Prop :=
  searchTerm s' = searchTerm s /\ filterStatus s' = filterStatus s
  /\ currentPage s' = currentPage s /\ pageSize s' = pageSize s
  /\ sortConfig s' = sortConfig s /\ loginForm s' = loginForm s
  /\ authLoading s' = authLoading s /\ authError s' = authError s.

(** A refresh that fails: the query rejects, or resolves with an error. *)
Inductive failed (err : JsError) : Awaited QueryResult -> Prop :=
| failed_rejected : failed err (Rejected err)
| failed_error : forall rows,
    failed err (Resolved {| resp_data := rows; resp_error := Some err |}).

(** A refresh that succeeds with the rows [rows] ([null] read as none). *)
Inductive succeeded (rows : list License) : Awaited QueryResult -> Prop :=
| succeeded_rows :
    succeeded rows (Resolved {| resp_data := Some rows; resp_error := None |})
| succeeded_null :
    rows = [] ->
    succeeded rows (Resolved {| resp_data := None; resp_error := None |}).

(** The entries of the configured allow-list: the comma-separated pieces,
    trimmed, the empty ones left out. *)
Definition allowEntries (VITE_ADMIN_EMAILS : option string) : list string :=
  filter (fun entry => negb (String.eqb entry ""))
         (map (Js.trim engine) (Js.split "," (Js.orEmpty VITE_ADMIN_EMAILS))).

(** The address equals an entry of the allow-list up to letter case. *)
Definition listed (VITE_ADMIN_EMAILS : option string) (address : string) : Prop :=
  exists entry, In entry (allowEntries VITE_ADMIN_EMAILS)
                /\ Js.toLowerCase engine entry = Js.toLowerCase engine address.

(** The page index of a rendered view is a page of it. *)
Definition pageInRange (r : Rendered) : Prop :=
  1 <= currentPage (state r) <= renderedTotalPages r.

(** The action changes a dependency of the reset effect. *)
Definition changesResetDeps (r : Rendered) (a : Action) : bool :=
  match a with
  | TypeSearch value => negb (String.eqb value (searchTerm (state r)))
  | SelectFilter value => negb (FilterStatus_eqb value (filterStatus (state r)))
  | SelectPageSize value => negb (value =? pageSize (state r))
  | _ => false
  end.

(** Where a status stands in the life of a license: in use or for use,
    then about to expire, then expired. *)
Definition lifeStage (s : Status) : Z :=
  match s with
  | available | active => 0
  | expiring => 1
  | expired => 2
  end.

(** The badge colour that goes with a status. *)
Definition badgeOf (s : Status) : BadgeColor :=
  match s with
  | expired => red
  | expiring => yellow
  | active => green
  | available => blue
  end.

(** The sign of a direction, and the instant a record expires at (0 for a
    text that does not parse). *)
Definition directionSign (d : SortDirection) : Z :=
  match d with asc => 1 | desc => -1 end.

Definition instant (R : License) : Z :=
  match Date_parse (expires_at R) with
  | Some t => t
  | None => 0
  end.

Definition byExpiry (d : SortDirection) : SortConfig :=
  {| field := by_expires_at; direction := d |}.

(** The memoised values of a render are those of its state: the filtered
    list is the filter of the state's list, term and status filter, and the
    sorted list is the sort of the filtered list by the state's sort
    configuration, each as computed at some clock reading. *)
Definition memoFresh (r : Rendered) : Prop :=
  (exists env,
      memoFiltered r
      = filteredLicenses (licenses (state r)) (searchTerm (state r))
                         (filterStatus (state r)) env)
  /\ (exists env,
        memoSorted r = sortedLicenses (memoFiltered r) (sortConfig (state r)) env).

(** The credentials initialise a client: both are non-empty, the address
    is a valid URL, and [createClient] returns. *)
Definition canConnect (validUrl : string -> bool)
    (createClient : string -> string -> JsError + SupabaseClient)
    (creds : Credentials.t) : bool :=
  Js.truthy (Some (Credentials.url creds))
  && Js.truthy (Some (Credentials.key creds))
  && validUrl (Credentials.url creds)
  && match createClient (Credentials.url creds) (Credentials.key creds) with
     | inr _ => true
     | inl _ => false
     end.

(** A pair of optional texts read as credentials, when both are non-empty. *)
Definition credentialsOf (url key : option string) : option Credentials.t :=
  if Js.truthy url && Js.truthy key
  then Some {| Credentials.url := Js.orEmpty url;
               Credentials.key := Js.orEmpty key |}
  else None.

(** The source can be used: it gives credentials, and they initialise. *)
Definition usable (validUrl : string -> bool)
    (createClient : string -> string -> JsError + SupabaseClient)
    (source : option Credentials.t) : bool :=
  match source with
  | Some creds => canConnect validUrl createClient creds
  | None => false
  end.

(** The client made from a source, if any. *)
Definition clientOf
    (createClient : string -> string -> JsError + SupabaseClient)
    (source : option Credentials.t) : option SupabaseClient :=
  match source with
  | Some creds =>
      match createClient (Credentials.url creds) (Credentials.key creds) with
      | inr client => Some client
      | inl _ => None
      end
  | None => None
  end.

(* ================================================================= *)
(** ** Properties *)

(** *** Status classifier *)

Lemma div_le_sevenDays (x : Z) :
  Js.le (Js.div (Some x) msPerDay) 7 = (x <=? sevenDays).
Proof.
  unfold Js.le, Js.div, option_map, msPerDay, sevenDays.
  apply eq_true_iff_eq. rewrite Qle_bool_iff, Z.leb_le.
  unfold Qle, Qdiv, Qmult, Qinv, inject_Z. cbn. lia.
Qed.

Lemma truthy_isBound (R : License) : Js.truthy (hwid R) = true <-> isBound R.
Proof.
  unfold isBound. destruct (hwid R) as [[|c h]|]; cbn; split.
  - discriminate.
  - intros (h & Hh & Hne). injection Hh as <-. now elim Hne.
  - intros _. exists (String c h). split; [reflexivity | discriminate].
  - reflexivity.
  - discriminate.
  - intros (h & Hh & _). discriminate.
Qed.

(** The classifier as a decision list over the parsed expiry instant. *)
Lemma getLicenseStatus_unfold (R : License) (T : Z) :
  getLicenseStatus R {| wallClock := T |} =
  match Date_parse (expires_at R) with
  | Some t =>
      if t <? T then expired
      else if t - T <=? sevenDays then expiring
      else if Js.truthy (hwid R) then active else available
  | None => if Js.truthy (hwid R) then active else available
  end.
Proof.
  unfold getLicenseStatus, bind, ret, Date_now. cbn [wallClock].
  destruct (Date_parse (expires_at R)) as [t|]; cbn [Js.lt Js.sub].
  - rewrite div_le_sevenDays. destruct (t <? T); reflexivity.
  - reflexivity.
Qed.

Lemma expiresBefore_iff (R : License) (T : Z) :
  expiresBefore R T <->
  match Date_parse (expires_at R) with Some t => t < T | None => False end.
Proof.
  unfold expiresBefore. destruct (Date_parse (expires_at R)) as [t|].
  - split; [intros (t' & [= <-] & H); exact H | intros H; now exists t].
  - split; [intros (t' & [=] & _) | intros []].
Qed.

Lemma expiresWithin_iff (R : License) (T span : Z) :
  expiresWithin R T span <->
  match Date_parse (expires_at R) with Some t => t - T <= span | None => False end.
Proof.
  unfold expiresWithin. destruct (Date_parse (expires_at R)) as [t|].
  - split; [intros (t' & [= <-] & H); exact H | intros H; now exists t].
  - split; [intros (t' & [=] & _) | intros []].
Qed.


(** C1 (as amended).  At every instant [T] the classifier gives a record
    exactly one of the four statuses: [expired] iff [expires_at] is strictly
    before [T]; [expiring] iff it is not expired and [expires_at - T] is at
    most seven days of elapsed time, whatever [hwid] is; otherwise [active]
    iff [hwid] is a non-empty string, and [available] iff [hwid] is null or
    the empty string. *)
Theorem getLicenseStatus_classifies (R : License) (T : Z) :
  let s := getLicenseStatus R {| wallClock := T |} in
  (s = expired <-> expiresBefore R T) /\
  (s = expiring <-> ~ expiresBefore R T /\ expiresWithin R T sevenDays) /\
  (s = active <->
     ~ expiresBefore R T /\ ~ expiresWithin R T sevenDays /\ isBound R) /\
  (s = available <->
     ~ expiresBefore R T /\ ~ expiresWithin R T sevenDays /\ ~ isBound R).
Proof.
  cbv zeta. rewrite getLicenseStatus_unfold.
  rewrite expiresBefore_iff, expiresWithin_iff, <- truthy_isBound.
  destruct (Date_parse (expires_at R)) as [t|].
  - destruct (Z.ltb_spec t T); [| destruct (Z.leb_spec (t - T) sevenDays)];
      [ | | destruct (Js.truthy (hwid R))];
      repeat split; intros; try discriminate; try lia;
      intuition (try lia; try discriminate).
  - destruct (Js.truthy (hwid R));
      repeat split; intros; try discriminate; intuition discriminate.
Qed.

(** C7 (as amended).  The classifier has no [now] parameter: it takes the
    wall-clock reading itself.  Its result is determined by the record's
    [expires_at], the record's [hwid] and that reading: two evaluations
    with equal [expires_at], equal [hwid] and equal clock readings return
    the same status (whatever the other fields and the rest of the
    environment are), and the evaluation returns nothing but the status. *)
Theorem getLicenseStatus_deterministic (R1 R2 : License) (env1 env2 : Env) :
  expires_at R1 = expires_at R2 ->
  hwid R1 = hwid R2 ->
  wallClock env1 = wallClock env2 ->
  getLicenseStatus R1 env1 = getLicenseStatus R2 env2.
Proof.
  destruct env1 as [T1], env2 as [T2]. cbn [wallClock]. intros He Hh <-.
  rewrite !getLicenseStatus_unfold, He, Hh. reflexivity.
Qed.

(** *** Filter engine *)

Lemma startsWith_iff (sub s : string) :
  Js.startsWith s sub = true <-> exists post, s = (sub ++ post)%string.
Proof.
  revert s. induction sub as [|b sub IH]; intros s; cbn.
  - split; [intros _; now exists s | reflexivity].
  - destruct s as [|a s].
    + split; [discriminate | intros (post & [=])].
    + rewrite andb_true_iff, Ascii.eqb_eq, IH. split.
      * intros (-> & post & ->). now exists post.
      * intros (post & [= -> ->]). split; [reflexivity | now exists post].
Qed.

Lemma includes_iff (sub s : string) :
  Js.includes s sub = true <-> Substring sub s.
Proof.
  unfold Substring. induction s as [|a s IH].
  - cbn [Js.includes]. rewrite orb_false_r, startsWith_iff. split.
    + intros (post & ->). now exists "", post.
    + intros ([|c pre] & post & H); [now exists post | discriminate].
  - cbn [Js.includes]. rewrite orb_true_iff, startsWith_iff, IH. split.
    + intros [(post & ->) | (pre & post & ->)].
      * now exists "", post.
      * now exists (String a pre), post.
    + intros ([|c pre] & post & H).
      * left. now exists post.
      * right. injection H as -> ->. now exists pre, post.
Qed.

Lemma includes_empty (s : string) : Js.includes s "" = true.
Proof. destruct s; reflexivity. Qed.

Lemma toLowerCase_nil : Js.toLowerCase engine "" = "".
Proof. now apply Js.toLowerCase_empty. Qed.

Lemma keepLicense_search (term : string) (R : License) :
  Js.includes (Js.toLowerCase engine (license_key R)) (Js.toLowerCase engine term)
  || match hwid R with
     | Some h => Js.truthy (Some h)
                 && Js.includes (Js.toLowerCase engine h) (Js.toLowerCase engine term)
     | None => false
     end = true
  <-> matchesSearch term R.
Proof.
  unfold matchesSearch. rewrite orb_true_iff, includes_iff.
  destruct (hwid R) as [h|].
  - rewrite andb_true_iff, includes_iff. split.
    + intros [Hk | [_ Hh]]; [now left | right; now exists h].
    + intros [Hk | (h' & [= <-] & Hh)]; [now left |].
      destruct h as [|c h]; [| right; now split].
      (* An empty identifier contains only the empty term, which the key
         contains as well. *)
      left. destruct Hh as (pre & post & Hh). rewrite toLowerCase_nil in Hh.
      destruct pre, (Js.toLowerCase engine term); try discriminate Hh.
      now exists "", (Js.toLowerCase engine (license_key R)).
  - split.
    + intros [Hk | [=]]. now left.
    + intros [Hk | (h' & [=] & _)]. now left.
Qed.

Lemma keepLicense_status (f : FilterStatus) (R : License) (T : Z) :
  let now := Some T in
  let expiryDate := Date_parse (expires_at R) in
  let isExpired := Js.lt expiryDate now in
  let isExpiringSoon :=
    negb isExpired && Js.le (Js.div (Js.sub expiryDate now) msPerDay) 7 in
  match f with
  | show_active => negb isExpired
  | show_expired => isExpired
  | show_expiring => isExpiringSoon
  | show_all => true
  end = true <-> matchesStatus f R {| wallClock := T |}.
Proof.
  cbv zeta. unfold matchesStatus. rewrite getLicenseStatus_unfold.
  destruct (Date_parse (expires_at R)) as [t|]; cbn [Js.lt Js.sub].
  - rewrite div_le_sevenDays.
    destruct f, (t <? T), (t - T <=? sevenDays), (Js.truthy (hwid R)); cbn;
      intuition (try discriminate; try congruence).
  - destruct f, (Js.truthy (hwid R)); cbn;
      intuition (try discriminate; try congruence).
Qed.

(** C2.  The filter is [Array.prototype.filter] with a predicate that holds
    exactly when the search predicate and the status predicate both hold:
    the result is the order-preserving subsequence of the records that
    satisfy both.  The empty term matches every record; [show_active]
    keeps the records the classifier does not call [expired], [show_expired]
    and [show_expiring] those it calls [expired] and [expiring]. *)
Theorem filteredLicenses_spec (licenses : list License) (term : string)
    (f : FilterStatus) (T : Z) :
  let env := {| wallClock := T |} in
  filteredLicenses licenses term f env
    = filter (fun R => keepLicense term f R env) licenses
  /\ (forall R, keepLicense term f R env = true
                <-> matchesSearch term R /\ matchesStatus f R env)
  /\ (forall R, matchesSearch "" R)
  /\ (forall R, matchesStatus show_active R env
                <-> getLicenseStatus R env = active
                    \/ getLicenseStatus R env = expiring
                    \/ getLicenseStatus R env = available).
Proof.
  clear localeCompare.
  cbv zeta. split; [reflexivity |]. split; [| split].
  - intros R. rewrite <- keepLicense_search, <- (keepLicense_status f R T).
    unfold keepLicense, bind, ret, Date_now. cbn [wallClock].
    match goal with |- context [negb ?b] => destruct b end; cbn [negb].
    + tauto.
    + split; [discriminate | intros [[=] _]].
  - intros R. left. apply includes_iff. rewrite toLowerCase_nil.
    apply includes_empty.
  - intros R. cbn. destruct (getLicenseStatus R _);
      intuition (try discriminate; try congruence).
Qed.

(** *** Sort engine *)

Section SortFacts.
Context {A : Type} (comparefn : A -> A -> Js.number).

Lemma insert_perm (x : A) (l : list A) :
  Permutation (Js.insert comparefn x l) (x :: l).
Proof.
  induction l as [|y l IH]; cbn [Js.insert]; [reflexivity |].
  destruct (Js.after comparefn x y); [| reflexivity].
  rewrite IH. apply perm_swap.
Qed.

Lemma sort_perm (l : list A) : Permutation (Js.stableSort comparefn l) l.
Proof.
  induction l as [|x l IH]; [constructor |].
  cbn [Js.stableSort fold_right]. fold (Js.stableSort comparefn l).
  rewrite insert_perm. now constructor.
Qed.

(** Elements that the comparator ties pairwise keep their input order. *)
Section Tied.
Variable tied : A -> bool.
Hypothesis tied_zero :
  forall a b, tied a = true -> tied b = true -> comparefn a b = Some 0.


End Tied.

(** A comparator that orders by an integer key yields a list sorted by it. *)
Section Keyed.
Variable key : A -> Z.
Hypothesis after_key : forall a b, Js.after comparefn a b = (key b <? key a).

Lemma insert_sorted (x : A) (l : list A) :
  StronglySorted (fun a b => key a <= key b) l ->
  StronglySorted (fun a b => key a <= key b) (Js.insert comparefn x l).
Proof using after_key.
  induction 1 as [|y l Hs IH Hy]; cbn [Js.insert].
  - repeat constructor.
  - rewrite after_key. destruct (Z.ltb_spec (key y) (key x)) as [Hlt|Hge].
    + constructor; [exact IH |].
      eapply Permutation_Forall; [symmetry; apply insert_perm |].
      constructor; [lia | exact Hy].
    + constructor; [now constructor |].
      constructor; [exact Hge |].
      eapply Forall_impl; [| exact Hy]. cbn. intros; lia.
Qed.

Lemma sort_sorted (l : list A) :
  StronglySorted (fun a b => key a <= key b) (Js.stableSort comparefn l).
Proof using after_key.
  induction l as [|x l IH]; [constructor |].
  cbn [Js.stableSort fold_right]. now apply insert_sorted.
Qed.
End Keyed.

(** With a consistent comparator the result is the stable sort; in any
    case it is a rearrangement of the array. *)
Lemma sort_consistent (l : list A) :
  Js.consistent comparefn l = true ->
  Js.sort engine comparefn l = Js.stableSort comparefn l.
Proof. unfold Js.sort. now intros ->. Qed.

Lemma sort_rearranges (l : list A) : Permutation (Js.sort engine comparefn l) l.
Proof.
  unfold Js.sort. destruct (Js.consistent comparefn l).
  - apply sort_perm.
  - apply Js.sortOrder_perm.
Qed.

Lemma combine_map {B C D : Type} (f : B -> C) (g : B -> D) (l : list B) :
  combine (map f l) (map g l) = map (fun x => (f x, g x)) l.
Proof. induction l as [|x l IH]; [reflexivity |]. cbn. now rewrite IH. Qed.

Lemma combine_self {B C : Type} (f : B -> C) (l : list B) :
  combine l (map f l) = map (fun x => (x, f x)) l.
Proof. induction l as [|x l IH]; [reflexivity |]. cbn. now rewrite IH. Qed.

Lemma forallb_mapped {B C : Type} (p : C -> bool) (f : B -> C) (l : list B) :
  forallb p (map f l) = forallb (fun x => p (f x)) l.
Proof. induction l as [|x l IH]; [reflexivity |]. cbn. now rewrite IH. Qed.

Lemma forallb_same {B : Type} (p q : B -> bool) (l : list B) :
  (forall x, p x = q x) -> forallb p l = forallb q l.
Proof.
  intros H. induction l as [|x l IH]; [reflexivity |]. cbn. now rewrite H, IH.
Qed.

(** The tabulated check is the check of every triple of values. *)
Lemma consistent_triples (l : list A) :
  Js.consistent comparefn l
  = forallb
      (fun a =>
         Js.same comparefn a a
         && forallb
              (fun b =>
                 (Js.same comparefn a b || Js.before comparefn a b
                  || Js.after comparefn a b)
                 && (if Js.same comparefn a b then Js.same comparefn b a
                     else true)
                 && forallb
                      (fun c =>
                         (if Js.same comparefn a b
                          then if Js.same comparefn b c
                               then Js.same comparefn a c else true
                          else true)
                         && (if Js.before comparefn a b
                             then if Js.before comparefn b c
                                  then Js.before comparefn a c else true
                             else true)
                         && (if Js.after comparefn a b
                             then if Js.after comparefn b c
                                  then Js.after comparefn a c else true
                             else true))
                      l)
              l)
      l.
Proof.
  unfold Js.consistent. cbv zeta.
  rewrite combine_map, combine_self, forallb_mapped.
  apply forallb_same. intros a. cbv beta iota. f_equal.
  rewrite combine_map, combine_map, forallb_mapped.
  apply forallb_same. intros b. cbv beta iota. f_equal.
  rewrite combine_map, forallb_mapped. reflexivity.
Qed.

(** [Js.consistent] decides the conditions of a consistent comparator. *)
Lemma consistent_iff (l : list A) :
  Js.consistent comparefn l = true <->
  (forall a, In a l -> Js.same comparefn a a = true)
  /\ (forall a b, In a l -> In b l ->
        Js.same comparefn a b || Js.before comparefn a b
        || Js.after comparefn a b = true)
  /\ (forall a b, In a l -> In b l ->
        Js.same comparefn a b = true -> Js.same comparefn b a = true)
  /\ (forall a b c, In a l -> In b l -> In c l ->
        (Js.same comparefn a b = true -> Js.same comparefn b c = true ->
         Js.same comparefn a c = true)
        /\ (Js.before comparefn a b = true -> Js.before comparefn b c = true ->
            Js.before comparefn a c = true)
        /\ (Js.after comparefn a b = true -> Js.after comparefn b c = true ->
            Js.after comparefn a c = true)).
Proof.
  rewrite consistent_triples, forallb_forall. split.
  - intros H.
    assert (Hb : forall a b, In a l -> In b l ->
      (Js.same comparefn a b || Js.before comparefn a b
       || Js.after comparefn a b = true)
      /\ (Js.same comparefn a b = true -> Js.same comparefn b a = true)
      /\ forall c, In c l ->
           (Js.same comparefn a b = true -> Js.same comparefn b c = true ->
            Js.same comparefn a c = true)
           /\ (Js.before comparefn a b = true -> Js.before comparefn b c = true ->
               Js.before comparefn a c = true)
           /\ (Js.after comparefn a b = true -> Js.after comparefn b c = true ->
               Js.after comparefn a c = true)).
    { intros a b Ha Hb. specialize (H a Ha).
      apply andb_true_iff in H. destruct H as [_ H].
      rewrite forallb_forall in H. specialize (H b Hb). cbv zeta in H.
      rewrite !andb_true_iff in H. destruct H as [[Hnum Hsym] Htrans].
      split; [exact Hnum |]. split.
      - intros E. now rewrite E in Hsym.
      - intros c Hc. rewrite forallb_forall in Htrans.
        specialize (Htrans c Hc). rewrite !andb_true_iff in Htrans.
        destruct Htrans as [[H1 H2] H3]. repeat split.
        + intros E1 E2. now rewrite E1, E2 in H1.
        + intros E1 E2. now rewrite E1, E2 in H2.
        + intros E1 E2. now rewrite E1, E2 in H3. }
    repeat split.
    + intros a Ha. specialize (H a Ha). now apply andb_true_iff in H.
    + intros a b Ha Hb'. now apply Hb.
    + intros a b Ha Hb'. now apply Hb.
    + now apply (Hb a b).
    + now apply (Hb a b).
    + now apply (Hb a b).
  - intros (Hrefl & Hnum & Hsym & Htrans) a Ha.
    apply andb_true_iff. split; [now apply Hrefl |].
    apply forallb_forall. intros b Hb. cbv zeta.
    rewrite !andb_true_iff. repeat split.
    + now apply Hnum.
    + destruct (Js.same comparefn a b) eqn:E; [now apply Hsym | reflexivity].
    + apply forallb_forall. intros c Hc.
      destruct (Htrans a b c Ha Hb Hc) as (H1 & H2 & H3).
      rewrite !andb_true_iff. repeat split.
      * destruct (Js.same comparefn a b); [| reflexivity].
        destruct (Js.same comparefn b c); [| reflexivity]. now apply H1.
      * destruct (Js.before comparefn a b); [| reflexivity].
        destruct (Js.before comparefn b c); [| reflexivity]. now apply H2.
      * destruct (Js.after comparefn a b); [| reflexivity].
        destruct (Js.after comparefn b c); [| reflexivity]. now apply H3.
Qed.

(** A comparator that returns the difference of an integer key is
    consistent. *)
Lemma consistent_keyed (key : A -> Z) (l : list A) :
  (forall a b, In a l -> In b l -> comparefn a b = Some (key a - key b)) ->
  Js.consistent comparefn l = true.
Proof.
  intros Hkey. apply consistent_iff.
  unfold Js.same, Js.before, Js.after, Js.gt, Js.lt.
  split; [| split; [| split]].
  - intros a Ha. rewrite (Hkey a a Ha Ha). apply Z.eqb_eq. lia.
  - intros a b Ha Hb. rewrite (Hkey a b Ha Hb). cbn [Js.isSame].
    destruct (Z.eqb_spec (key a - key b) 0), (Z.ltb_spec (key a - key b) 0),
      (Z.ltb_spec 0 (key a - key b)); try reflexivity; lia.
  - intros a b Ha Hb. rewrite (Hkey a b Ha Hb), (Hkey b a Hb Ha).
    cbn [Js.isSame]. rewrite !Z.eqb_eq. lia.
  - intros a b c Ha Hb Hc.
    rewrite (Hkey a b Ha Hb), (Hkey b c Hb Hc), (Hkey a c Ha Hc).
    cbn [Js.isSame]. rewrite !Z.eqb_eq, !Z.ltb_lt. repeat split; lia.
Qed.




End SortFacts.


(** A list sorted by a key with the four values 0..3, one per status, is
    the concatenation of its four status classes. *)
Section FourClasses.
Context {A : Type} (status : A -> Status) (key : Status -> Z).
Variables s0 s1 s2 s3 : Status.
Hypothesis key0 : key s0 = 0.
Hypothesis key1 : key s1 = 1.
Hypothesis key2 : key s2 = 2.
Hypothesis key3 : key s3 = 3.



End FourClasses.









Lemma expiry_consistent (cfg : SortConfig) (env : Env) (records : list License) :
  field cfg = by_expires_at ->
  Forall (fun R => Date_parse (expires_at R) <> None) records ->
  Js.consistent (fun a b => compareLicenses cfg a b env) records = true.
Proof.
  intros Hf Hvalid. rewrite Forall_forall in Hvalid.
  apply (consistent_keyed _
           (fun R => match Date_parse (expires_at R) with
                     | Some t => t
                     | None => 0
                     end * match direction cfg with asc => 1 | desc => -1 end)).
  intros a b Ha Hb. unfold compareLicenses, ret. rewrite Hf.
  pose proof (Hvalid a Ha) as Va. pose proof (Hvalid b Hb) as Vb.
  destruct (Date_parse (expires_at a)), (Date_parse (expires_at b));
    try congruence.
  cbn [Js.sub Js.mul option_map]. f_equal. lia.
Qed.



(** *** Paginator *)

Lemma Qceiling_quotient (n p : Z) :
  0 < p -> Qceiling (inject_Z n / inject_Z p) = - (- n / p).
Proof.
  intros Hp. destruct p as [|p|p]; try lia.
  unfold Qceiling, Qfloor, Qdiv, Qmult, Qinv, Qopp, inject_Z. cbn.
  now rewrite Z.mul_1_r.
Qed.

(** The ceiling of [n / p] is the integer [c] with [(c-1) * p < n <= c * p]. *)
Lemma ceiling_bounds (n p : Z) :
  0 < p -> let c := - (- n / p) in (c - 1) * p < n <= c * p.
Proof.
  intros Hp c. subst c.
  pose proof (Z.div_mod (- n) p ltac:(lia)) as Hdm.
  pose proof (Z.mod_pos_bound (- n) p Hp) as Hm. nia.
Qed.

Lemma slice_page {A : Type} (l : list A) (start size : Z) :
  0 <= start -> 0 <= size ->
  Js.slice l start (start + size)
  = firstn (Z.to_nat size) (skipn (Z.to_nat start) l).
Proof.
  intros Hs Hz. unfold Js.slice, Js.relativeIndex.
  destruct (Z.ltb_spec start 0); [lia |].
  destruct (Z.ltb_spec (start + size) 0); [lia |].
  set (len := Z.of_nat (List.length l)).
  destruct (Z.le_gt_cases len start) as [Hout|Hin].
  - rewrite (Z.min_r start len) by lia.
    rewrite !skipn_all2 by (subst len; lia). now rewrite !firstn_nil.
  - rewrite (Z.min_l start len) by lia.
    destruct (Z.le_gt_cases (start + size) len) as [Hfull|Hpart].
    + f_equal. lia.
    + rewrite !firstn_all2; [reflexivity | |];
        rewrite length_skipn; subst len; lia.
Qed.

Lemma slice_length {A : Type} (l : list A) (start size : Z) :
  0 <= size -> Z.of_nat (List.length (Js.slice l start (start + size))) <= size.
Proof.
  intros Hz. unfold Js.slice, Js.relativeIndex. rewrite length_firstn.
  set (len := Z.of_nat (List.length l)).
  assert (0 <= len) by (subst len; lia).
  destruct (Z.ltb_spec start 0), (Z.ltb_spec (start + size) 0); lia.
Qed.

Lemma totalPages_ceiling (records : list License) (pageSize : Z) :
  1 <= pageSize ->
  totalPages records pageSize
  = Z.max 1 (- (- Z.of_nat (List.length records) / pageSize)).
Proof.
  intros Hp. unfold totalPages. now rewrite Qceiling_quotient by lia.
Qed.

(** C4.  For a page size of at least 1 and a 1-based page index: the number
    of pages is [max 1 c] where [c] is the ceiling of [len / pageSize] (the
    integer with [(c-1) * pageSize < len <= c * pageSize], which is
    [(len + pageSize - 1) / pageSize]); the page is the [pageSize] records
    that follow the first [(pageIndex-1) * pageSize], as many as there are;
    an empty list has one page, which is empty. *)
Theorem paginator_spec (records : list License) (pageSize pageIndex : Z) :
  1 <= pageSize ->
  1 <= pageIndex ->
  let len := Z.of_nat (List.length records) in
  (exists c, (c - 1) * pageSize < len <= c * pageSize
             /\ c = (len + pageSize - 1) / pageSize
             /\ totalPages records pageSize = Z.max 1 c)
  /\ paginatedLicenses records pageIndex pageSize
     = firstn (Z.to_nat pageSize)
              (skipn (Z.to_nat ((pageIndex - 1) * pageSize)) records)
  /\ 1 <= totalPages records pageSize
  /\ totalPages [] pageSize = 1
  /\ paginatedLicenses [] pageIndex pageSize = [].
Proof.
  intros Hp Hi len.
  assert (Hpage : forall l : list License,
             paginatedLicenses l pageIndex pageSize
             = firstn (Z.to_nat pageSize)
                      (skipn (Z.to_nat ((pageIndex - 1) * pageSize)) l)).
  { intros l. unfold paginatedLicenses. apply slice_page; nia. }
  repeat apply conj.
  - pose proof (ceiling_bounds len pageSize ltac:(lia)) as Hc. cbv zeta in Hc.
    set (c := - (- len / pageSize)) in Hc. exists c.
    repeat apply conj; try apply Hc.
    + apply (Z.div_unique (len + pageSize - 1) pageSize c
                          (len + pageSize - 1 - c * pageSize)); [left |]; lia.
    + now apply totalPages_ceiling.
  - apply Hpage.
  - unfold totalPages. lia.
  - rewrite totalPages_ceiling by lia. cbn [List.length Z.of_nat Z.opp].
    rewrite Z.div_0_l by lia. reflexivity.
  - rewrite Hpage. now rewrite skipn_nil, firstn_nil.
Qed.

Lemma concat_chunks {A : Type} (n k : nat) (l : list A) :
  (List.length l <= k * n)%nat ->
  List.concat (map (fun j => firstn n (skipn (j * n) l)) (seq 0 k)) = l.
Proof.
  revert l. induction k as [|k IH]; intros l Hlen.
  - destruct l; [reflexivity | cbn in Hlen; lia].
  - cbn [seq map List.concat]. rewrite <- seq_shift, map_map.
    rewrite (map_ext _ (fun j => firstn n (skipn (j * n) (skipn n l)))).
    + rewrite IH by (rewrite length_skipn; lia). apply firstn_skipn.
    + intros j. rewrite skipn_skipn. do 2 f_equal. lia.
Qed.

(** C5.  For a page size of at least 1, a page never holds more than
    [pageSize] records, whatever the page index, and the pages for the
    indices [1 .. totalPages], concatenated in order, are the input list:
    every record appears once, at its place. *)
Theorem paginator_partition (records : list License) (pageSize : Z) :
  1 <= pageSize ->
  (forall pageIndex,
      Z.of_nat (List.length (paginatedLicenses records pageIndex pageSize))
      <= pageSize)
  /\ List.concat (allPages records pageSize) = records.
Proof.
  intros Hp. split.
  - intros pageIndex. unfold paginatedLicenses. apply slice_length. lia.
  - unfold allPages. rewrite <- seq_shift, map_map.
    rewrite (map_ext _ (fun j => firstn (Z.to_nat pageSize)
                                        (skipn (j * Z.to_nat pageSize) records))).
    + apply concat_chunks.
      rewrite totalPages_ceiling by lia.
      pose proof (ceiling_bounds (Z.of_nat (List.length records)) pageSize
                                 ltac:(lia)) as Hc.
      cbv zeta in Hc. nia.
    + intros j. unfold paginatedLicenses. rewrite slice_page by nia.
      do 2 f_equal. nia.
Qed.

(** *** Dashboard counters *)

Lemma count_cons {A : Type} (p : A -> bool) (x : A) (l : list A) :
  count p (x :: l) = count p l + (if p x then 1 else 0).
Proof.
  unfold count. cbn [filter]. destruct (p x); cbn [List.length]; lia.
Qed.

Lemma lt_expiresBefore (R : License) (T : Z) :
  Js.lt (Date_parse (expires_at R)) (Some T) = true <-> expiresBefore R T.
Proof.
  rewrite expiresBefore_iff. destruct (Date_parse (expires_at R)) as [t|]; cbn.
  - apply Z.ltb_lt.
  - split; [discriminate | intros []].
Qed.


(** *** List refresh *)

(** C9.  For an authorized session with a client, a refresh always ends
    with a state (it is not fatal) in which [loading] is off and the view
    settings are as before.  When it fails, the list is the list from
    before and [error] holds the failure's message; when it succeeds, the
    list is the fetched one and [error] is cleared.  The message stays
    through the view actions, and a refresh after a failed one behaves
    like any other.  Without authorization or without a client the call
    changes nothing. *)
Theorem fetchLicenses_outcomes (s : AppState) (response : Awaited QueryResult) :
  let s' := fetchLicenses true (Some supabase) response s in
  loading s' = false
  /\ sameView s s'
  /\ (forall err, failed err response ->
        licenses s' = licenses s /\ error s' = Some (message err))
  /\ (forall rows, succeeded rows response ->
        licenses s' = rows /\ error s' = None)
  /\ ((exists err, failed err response) \/ (exists rows, succeeded rows response))
  /\ (forall r a, error (perform r a) = error (state r))
  /\ (forall rows,
        let again := fetchLicenses true (Some supabase)
                       (Resolved {| resp_data := Some rows; resp_error := None |}) s' in
        licenses again = rows /\ error again = None /\ loading again = false)
  /\ (forall client, fetchLicenses false client response s = s)
  /\ (forall authorized, fetchLicenses authorized None response s = s).
Proof.
  cbv zeta. unfold fetchLicenses, tryCatchFinally. cbn [negb].
  split; [| split; [| split; [| split; [| split; [| split; [| split; [| split]]]]]]].
  - destruct response as [[rows [err|]]|err]; reflexivity.
  - destruct response as [[rows [err|]]|err]; repeat split.
  - intros err Hf. destruct Hf; split; reflexivity.
  - intros rows Hs. destruct Hs as [| ->]; split; reflexivity.
  - destruct response as [[[rows|] [err|]]|err].
    + left. exists err. constructor.
    + right. exists rows. constructor.
    + left. exists err. constructor.
    + right. exists []. now constructor.
    + left. exists err. constructor.
  - intros r a. destruct a; reflexivity.
  - intros rows. repeat split.
  - reflexivity.
  - intros authorized. destruct authorized; reflexivity.
Qed.

(** *** Authorization *)

Lemma truthy_Some (s : string) : Js.truthy (Some s) = negb (String.eqb s "").
Proof. destruct s; reflexivity. Qed.

Lemma orEmpty_Some (s : string) : Js.orEmpty (Some s) = s.
Proof. destruct s; reflexivity. Qed.

Lemma arrayIncludes_In (xs : list string) (x : string) :
  Js.arrayIncludes xs x = true <-> In x xs.
Proof.
  unfold Js.arrayIncludes. rewrite existsb_exists. split.
  - intros (y & Hy & Heq). apply String.eqb_eq in Heq. now subst.
  - intros Hx. exists x. split; [assumption | apply String.eqb_refl].
Qed.

Lemma adminEmails_allowEntries (v : option string) :
  adminEmails engine v = map (Js.toLowerCase engine) (allowEntries v).
Proof.
  unfold adminEmails, allowEntries.
  induction (Js.split "," (Js.orEmpty v)) as [|piece pieces IH]; [reflexivity |].
  cbn [map filter]. rewrite truthy_Some, IH.
  destruct (String.eqb_spec (Js.trim engine piece) "") as [E | E],
    (String.eqb_spec (Js.toLowerCase engine (Js.trim engine piece)) "")
      as [L | L]; try reflexivity.
  - rewrite E in L. now rewrite toLowerCase_nil in L.
  - now apply Js.toLowerCase_empty in L.
Qed.

Lemma includes_listed (v : option string) (address : string) :
  Js.arrayIncludes (adminEmails engine v) (Js.toLowerCase engine address) = true
  <-> listed v address.
Proof.
  clear localeCompare Date_parse.
  rewrite arrayIncludes_In, adminEmails_allowEntries, in_map_iff.
  unfold listed. split; intros (entry & H1 & H2); exists entry; tauto.
Qed.

Lemma adminEmails_nil (v : option string) :
  adminEmails engine v = [] <-> allowEntries v = [].
Proof.
  rewrite adminEmails_allowEntries. destruct (allowEntries v); cbn; split; congruence.
Qed.

(** C8 (as amended).  For a user whose account has a non-empty e-mail
    address: with an empty allow-list the user is authorized; with a
    non-empty one the user is authorized exactly when the address equals an
    entry up to letter case; and a successful sign-in of the user is
    followed by a sign-out exactly when the list is non-empty and does not
    list the address, however the sign-out ends. *)
Theorem authorization_spec (v : option string) (u : User) (address : string) :
  email u = Some address ->
  address <> "" ->
  let admins := adminEmails engine v in
  (allowEntries v = [] -> isAuthorized engine (Some u) admins = true)
  /\ (allowEntries v <> [] ->
      (isAuthorized engine (Some u) admins = true <-> listed v address))
  /\ (forall s r signedOut,
        signInError r = None -> signedInUser r = Some u ->
        let out := handleLogin engine (Some supabase) admins (Resolved r)
                               signedOut s in
        In signOut (snd out) <-> allowEntries v <> [] /\ ~ listed v address).
Proof.
  clear localeCompare Date_parse.
  intros Hu Hne. cbv zeta.
  assert (Htr : Js.truthy (Some address) = true).
  { rewrite truthy_Some. destruct address; [congruence | reflexivity]. }
  assert (Hauth : isAuthorized engine (Some u) (adminEmails engine v)
                  = if (List.length (adminEmails engine v) =? 0)%nat then true
                    else Js.arrayIncludes (adminEmails engine v)
                           (Js.toLowerCase engine address)).
  { unfold isAuthorized. rewrite Hu, Htr, orEmpty_Some. reflexivity. }
  split; [| split].
  - intros Hnil. apply adminEmails_nil in Hnil. rewrite Hauth, Hnil. reflexivity.
  - intros Hcons. rewrite Hauth, <- includes_listed.
    destruct (adminEmails engine v) eqn:Ha; [| reflexivity].
    apply adminEmails_nil in Ha. now elim Hcons.
  - intros s r signedOut He Hr. unfold handleLogin. rewrite He, Hr, Hu.
    cbn [option_map]. rewrite orEmpty_Some, truthy_Some.
    destruct (String.eqb_spec (Js.toLowerCase engine address) "") as [E|_];
      [apply Js.toLowerCase_empty in E; now elim Hne |].
    cbn [negb andb]. rewrite <- adminEmails_nil, <- includes_listed.
    destruct (adminEmails engine v) as [|a l];
      cbn [List.length Nat.ltb Nat.leb andb].
    + cbn [snd In]. split; [intros [[=] | []] | intros [Hc _]; congruence].
    + destruct (Js.arrayIncludes (a :: l) (Js.toLowerCase engine address));
        cbn [negb].
      * cbn [snd In]. split; [intros [[=] | []] | intros [_ Hc]; now elim Hc].
      * destruct signedOut; cbn [snd In];
          (split; [intros _; split; discriminate | intros _; tauto]).
Qed.

(** *** Page index *)

Lemma totalPages_pos (l : list License) (size : Z) : 1 <= totalPages l size.
Proof. unfold totalPages. lia. Qed.

Lemma FilterStatus_eqb_refl (f : FilterStatus) : FilterStatus_eqb f f = true.
Proof. destruct f; reflexivity. Qed.

Lemma last_cons {A : Type} (l : list A) (a d : A) :
  last (a :: l) d = last l a.
Proof.
  revert a d. induction l as [|b l IH]; intros a d; [reflexivity |].
  change (last (a :: b :: l) d) with (last (b :: l) d). now rewrite !IH.
Qed.

Lemma flush_page (queue : list Z) (s : AppState) :
  flush queue s = setCurrentPage (last queue (currentPage s)) s.
Proof.
  unfold flush. revert s. induction queue as [|page queue IH]; intros s.
  - destruct s; reflexivity.
  - cbn [fold_left]. rewrite IH, last_cons. reflexivity.
Qed.

(** A render of the same state but for the page index keeps the memoised
    values. *)
Lemma render_page_only (cur : Rendered) (page : Z) (env : Env) :
  render cur false false (setCurrentPage page (state cur)) env
  = {| state := setCurrentPage page (state cur);
       memoFiltered := memoFiltered cur;
       memoSorted := memoSorted cur |}.
Proof.
  unfold render. cbn [setCurrentPage searchTerm filterStatus orb].
  now rewrite String.eqb_refl, FilterStatus_eqb_refl.
Qed.

(** What the effects of a committed render queue, by cases. *)
Lemma effects_last (prev cur : Rendered) :
  let p := currentPage (state cur) in
  let T := renderedTotalPages cur in
  let reset :=
    negb (String.eqb (searchTerm (state cur)) (searchTerm (state prev)))
    || negb (FilterStatus_eqb (filterStatus (state cur)) (filterStatus (state prev)))
    || negb (pageSize (state cur) =? pageSize (state prev)) in
  let clamp :=
    (negb (T =? renderedTotalPages prev)
     || negb (p =? currentPage (state prev))) && (T <? p) in
  last (effects prev cur) p = if clamp then T else if reset then 1 else p.
Proof.
  cbv zeta. unfold effects, clampEffect.
  destruct (negb (String.eqb _ _) || _ || _);
    destruct (negb (_ =? _) || negb (_ =? _));
    destruct (_ <? _); reflexivity.
Qed.

(** Two effect rounds settle any render: the second finds nothing to do. *)
Lemma settle_once (n : nat) (prev cur : Rendered) (env : Env) :
  let p' := last (effects prev cur) (currentPage (state cur)) in
  settle (S (S n)) prev cur env
  = if p' =? currentPage (state cur) then cur
    else {| state := setCurrentPage p' (state cur);
            memoFiltered := memoFiltered cur;
            memoSorted := memoSorted cur |}.
Proof.
  cbv zeta. cbn [settle]. rewrite flush_page. cbn [setCurrentPage currentPage].
  destruct (Z.eqb_spec (last (effects prev cur) (currentPage (state cur)))
                       (currentPage (state cur))) as [E|N]; [reflexivity |].
  unfold bind. rewrite render_page_only.
  set (next := {| state := _; memoFiltered := _; memoSorted := _ |}).
  rewrite flush_page.
  assert (Hstay : last (effects cur next) (currentPage (state next))
                  = currentPage (state next)).
  { rewrite effects_last. subst next.
    cbn [state setCurrentPage searchTerm filterStatus pageSize currentPage].
    unfold renderedTotalPages.
    cbn [state memoSorted setCurrentPage pageSize].
    rewrite String.eqb_refl, FilterStatus_eqb_refl, !Z.eqb_refl. cbn [negb orb].
    fold (renderedTotalPages cur).
    rewrite effects_last in N |- *.
    pose proof (totalPages_pos (memoSorted cur) (pageSize (state cur))) as HT.
    fold (renderedTotalPages cur) in HT.
    destruct ((negb (renderedTotalPages cur =? renderedTotalPages prev)
               || negb (currentPage (state cur) =? currentPage (state prev)))
              && (renderedTotalPages cur <? currentPage (state cur))).
    - rewrite Z.ltb_irrefl, andb_false_r. reflexivity.
    - destruct (negb (String.eqb _ _) || _ || _); [| congruence].
      destruct (Z.ltb_spec (renderedTotalPages cur) 1); [lia |].
      rewrite andb_false_r. reflexivity. }
  rewrite Hstay.
  cbn [setCurrentPage currentPage]. rewrite Z.eqb_refl. reflexivity.
Qed.

(** The fuel of [dispatch] is enough: more fuel gives the same view. *)
Lemma settle_fuel (n : nat) (prev cur : Rendered) (env : Env) :
  settle (2 + n) prev cur env = settle 2 prev cur env.
Proof. cbn [Nat.add]. now rewrite !settle_once. Qed.

Lemma reset_deps_perform (r : Rendered) (a : Action) :
  negb (String.eqb (searchTerm (perform r a)) (searchTerm (state r)))
  || negb (FilterStatus_eqb (filterStatus (perform r a)) (filterStatus (state r)))
  || negb (pageSize (perform r a) =? pageSize (state r))
  = changesResetDeps r a.
Proof.
  destruct a; cbn;
    rewrite ?String.eqb_refl, ?FilterStatus_eqb_refl, ?Z.eqb_refl; cbn;
    rewrite ?orb_false_r; reflexivity.
Qed.

Lemma perform_page (r : Rendered) (a : Action) :
  pageInRange r ->
  1 <= currentPage (perform r a) <= renderedTotalPages r.
Proof.
  unfold pageInRange. intros Hr. destruct a; cbn; lia.
Qed.

(** The page index after an action: the clamp effect wins over the reset
    effect when both run. *)
Lemma dispatch_page (r : Rendered) (a : Action) (env : Env) :
  pageInRange r ->
  let first := render r (replacesLicenses a) (replacesSortConfig a)
                      (perform r a) env in
  let T1 := renderedTotalPages first in
  let p1 := currentPage (perform r a) in
  currentPage (state (dispatch r a env))
    = (if T1 <? p1 then T1 else if changesResetDeps r a then 1 else p1)
  /\ renderedTotalPages (dispatch r a env) = T1.
Proof.
  intros Hr. cbv zeta. unfold dispatch, bind.
  set (first := render r _ _ (perform r a) env).
  assert (Hst : state first = perform r a) by reflexivity.
  rewrite (settle_once 0), effects_last, Hst, reset_deps_perform.
  pose proof (perform_page r a Hr) as Hp.
  assert (Hclamp :
    (negb (renderedTotalPages first =? renderedTotalPages r)
     || negb (currentPage (perform r a) =? currentPage (state r)))
    && (renderedTotalPages first <? currentPage (perform r a))
    = (renderedTotalPages first <? currentPage (perform r a))).
  { destruct (Z.ltb_spec (renderedTotalPages first) (currentPage (perform r a)));
      [| apply andb_false_r].
    destruct (Z.eqb_spec (renderedTotalPages first) (renderedTotalPages r));
      [lia | reflexivity]. }
  rewrite Hclamp.
  set (p' := if renderedTotalPages first <? _ then _ else _).
  destruct (Z.eqb_spec p' (currentPage (perform r a))) as [E|N].
  - rewrite Hst. split; [now rewrite E | reflexivity].
  - split; [reflexivity |]. unfold renderedTotalPages.
    cbn [state memoSorted setCurrentPage pageSize]. reflexivity.
Qed.

Lemma dispatch_in_range (r : Rendered) (a : Action) (env : Env) :
  pageInRange r -> pageInRange (dispatch r a env).
Proof.
  intros Hr. unfold pageInRange.
  destruct (dispatch_page r a env Hr) as [-> ->].
  pose proof (perform_page r a Hr) as Hp.
  set (first := render r _ _ (perform r a) env).
  pose proof (totalPages_pos (memoSorted first) (pageSize (state first))) as HT.
  fold (renderedTotalPages first) in HT.
  destruct (Z.ltb_spec (renderedTotalPages first) (currentPage (perform r a)));
    [lia |].
  destruct (changesResetDeps r a); lia.
Qed.

Lemma mount_in_range (env : Env) : pageInRange (mount env).
Proof.
  unfold mount. set (first := {| state := initialState; memoFiltered := _;
                                 memoSorted := _ |}).
  pose proof (totalPages_pos (memoSorted first) (pageSize (state first))) as HT.
  fold (renderedTotalPages first) in HT.
  rewrite flush_page. unfold clampEffect.
  change (currentPage (state first)) with 1.
  destruct (Z.ltb_spec (renderedTotalPages first) 1); [lia |].
  cbn. unfold pageInRange. change (currentPage (state first)) with 1. lia.
Qed.

(** In every settled view the component can reach, the page index is
    between 1 and the number of pages. *)
Theorem page_index_in_range (r : Rendered) : reachable r -> pageInRange r.
Proof.
  induction 1 as [env | r a env _ IH _].
  - apply mount_in_range.
  - now apply dispatch_in_range.
Qed.

(** *** The classifier over time, and the table row *)

(** A license only moves forward through its life: as the clock advances
    its status goes from available or active to expiring to expired and
    never back, an expired license stays expired, and as long as it is
    neither expiring nor expired its status does not change. *)
Theorem status_over_time (R : License) (T T' : Z) :
  T <= T' ->
  let s := getLicenseStatus R {| wallClock := T |} in
  let s' := getLicenseStatus R {| wallClock := T' |} in
  lifeStage s <= lifeStage s'
  /\ (s = expired -> s' = expired)
  /\ (lifeStage s' = 0 -> s' = s).
Proof.
  intros HT. cbv zeta. rewrite !getLicenseStatus_unfold.
  destruct (Date_parse (expires_at R)) as [t|].
  - destruct (Z.ltb_spec t T), (Z.ltb_spec t T'); try lia;
      destruct (Z.leb_spec (t - T) sevenDays), (Z.leb_spec (t - T') sevenDays);
      try lia; destruct (Js.truthy (hwid R)); cbn;
      repeat split; intros; try discriminate; try lia; reflexivity.
  - destruct (Js.truthy (hwid R)); cbn; repeat split; intros;
      try discriminate; try lia; reflexivity.
Qed.

Lemma substring_prefix (n : nat) (s : string) :
  exists rest, s = (substring 0 n s ++ rest)%string
               /\ (String.length (substring 0 n s) <= n)%nat.
Proof.
  revert s. induction n as [|n IH]; intros s.
  - exists s. destruct s; split; cbn; try reflexivity; lia.
  - destruct s as [|c s]; [exists ""; split; cbn; [reflexivity | lia] |].
    destruct (IH s) as (rest & Hrest & Hlen). exists rest. cbn. split.
    + now f_equal.
    + lia.
Qed.

(** The row of a record shows the classifier's status: the badge colour is
    the one of [getLicenseStatus], the expiry is highlighted exactly for an
    expiring record, and the unlock button is enabled exactly when the
    hardware cell shows an identifier (so a green badge comes with an
    enabled button and a blue one with a disabled button, while an expired
    or expiring record may have either).  The cell shows a prefix of the
    identifier of at most 16 characters, followed by three dots. *)
Theorem renderRow_status (R : License) (env : Env) :
  let row := renderRow R env in
  badgeColor row = badgeOf (getLicenseStatus R env)
  /\ expiryHighlighted row = Status_eqb (getLicenseStatus R env) expiring
  /\ (unlockDisabled row = true <-> hwidCell row = None)
  /\ (badgeColor row = green -> unlockDisabled row = false)
  /\ (badgeColor row = blue -> unlockDisabled row = true)
  /\ (forall text, hwidCell row = Some text ->
        exists h shown rest,
          hwid R = Some h /\ h = (shown ++ rest)%string
          /\ text = (shown ++ "...")%string
          /\ (String.length shown <= 16)%nat).
Proof.
  destruct env as [T]. cbv zeta. rewrite getLicenseStatus_unfold.
  unfold renderRow, bind, ret, Date_now.
  cbn [wallClock badgeColor expiryHighlighted unlockDisabled hwidCell].
  assert (Hcell : forall text,
    (if Js.truthy (hwid R)
     then Some (substring 0 16 (Js.orEmpty (hwid R)) ++ "...")%string
     else None) = Some text ->
    exists h shown rest,
      hwid R = Some h /\ h = (shown ++ rest)%string
      /\ text = (shown ++ "...")%string /\ (String.length shown <= 16)%nat).
  { intros text. destruct (hwid R) as [[|c h]|]; cbn [Js.truthy]; try discriminate.
    intros [= <-]. destruct (substring_prefix 16 (String c h)) as (rest & Hr & Hl).
    exists (String c h), (substring 0 16 (String c h)), rest.
    repeat split; [exact Hr | exact Hl]. }
  destruct (Date_parse (expires_at R)) as [t|]; cbn [Js.lt Js.sub].
  - rewrite div_le_sevenDays.
    destruct (t <? T), (t - T <=? sevenDays), (Js.truthy (hwid R)) eqn:Htr;
      cbn; repeat split; intros; try discriminate; try reflexivity;
      try (now apply Hcell).
  - destruct (Js.truthy (hwid R)) eqn:Htr;
      cbn; repeat split; intros; try discriminate; try reflexivity;
      try (now apply Hcell).
Qed.

(** *** Composing filters *)

Lemma filter_and {A : Type} (p q : A -> bool) (l : list A) :
  filter p (filter q l) = filter (fun x => q x && p x) l.
Proof.
  induction l as [|x l IH]; [reflexivity |].
  cbn [filter]. destruct (q x); cbn [filter andb]; now rewrite IH.
Qed.

Lemma filter_split_length {A : Type} (p q : A -> bool) (l : list A) :
  List.length (filter p l)
  = (List.length (filter (fun x => p x && q x) l)
     + List.length (filter (fun x => p x && negb (q x)) l))%nat.
Proof.
  induction l as [|x l IH]; [reflexivity |].
  cbn [filter]. destruct (p x), (q x); cbn [andb negb List.length]; lia.
Qed.

Lemma keepLicense_iff (term : string) (f : FilterStatus) (R : License) (T : Z) :
  keepLicense term f R {| wallClock := T |} = true
  <-> matchesSearch term R /\ matchesStatus f R {| wallClock := T |}.
Proof.
  rewrite <- keepLicense_search, <- (keepLicense_status f R T).
  unfold keepLicense, bind, ret, Date_now. cbn [wallClock].
  match goal with |- context [negb ?b] => destruct b end; cbn [negb].
  - split; [intros H; now split | intros [_ H]; exact H].
  - split; [discriminate | intros [[=] _]].
Qed.

Lemma matchesSearch_empty (R : License) : matchesSearch "" R.
Proof. left. apply includes_iff. rewrite toLowerCase_nil. apply includes_empty. Qed.

(** The callback is the conjunction of its search part and its status
    part. *)
Lemma keepLicense_and (term : string) (f : FilterStatus) (R : License) (T : Z) :
  keepLicense term f R {| wallClock := T |}
  = keepLicense term show_all R {| wallClock := T |}
    && keepLicense "" f R {| wallClock := T |}.
Proof.
  apply eq_true_iff_eq. rewrite andb_true_iff, !keepLicense_iff.
  pose proof (matchesSearch_empty R). cbn [matchesStatus]. split.
  - intros [Hs Hf]. repeat split; assumption.
  - intros [[Hs _] [_ Hf]]. now split.
Qed.

Lemma keepLicense_active (term : string) (R : License) (T : Z) :
  keepLicense term show_active R {| wallClock := T |}
  = keepLicense term show_all R {| wallClock := T |}
    && negb (keepLicense term show_expired R {| wallClock := T |}).
Proof.
  apply eq_true_iff_eq.
  rewrite andb_true_iff, negb_true_iff, <- not_true_iff_false, !keepLicense_iff.
  cbn [matchesStatus]. split.
  - intros [Hs Hf]. split; [now split |]. intros [_ He]. now elim Hf.
  - intros [[Hs _] Hn]. split; [exact Hs |]. intros He. apply Hn. now split.
Qed.

Lemma keepLicense_expired (term : string) (R : License) (T : Z) :
  keepLicense term show_expired R {| wallClock := T |}
  = keepLicense term show_all R {| wallClock := T |}
    && keepLicense term show_expired R {| wallClock := T |}.
Proof.
  apply eq_true_iff_eq. rewrite andb_true_iff, !keepLicense_iff.
  cbn [matchesStatus]. split.
  - intros [Hs Hf]. repeat split; assumption.
  - intros [_ H]. exact H.
Qed.

(** Filtering at one clock reading: filtering the result again changes
    nothing; the search and the status filter can be applied one after the
    other, in either order; the [expired] and the [active] results split
    the [all] results; and the [expiring] results are among the [active]
    ones. *)
Theorem filteredLicenses_compose (licenses : list License) (term : string)
    (f : FilterStatus) (T : Z) :
  let env := {| wallClock := T |} in
  let shown g := filteredLicenses licenses term g env in
  filteredLicenses (shown f) term f env = shown f
  /\ filteredLicenses (filteredLicenses licenses "" f env) term show_all env
     = shown f
  /\ filteredLicenses (shown show_all) "" f env = shown f
  /\ List.length (shown show_all)
     = (List.length (shown show_expired) + List.length (shown show_active))%nat
  /\ filteredLicenses (shown show_active) term show_expiring env
     = shown show_expiring.
Proof.
  cbv zeta. unfold filteredLicenses, filterA. repeat apply conj.
  - rewrite filter_and. apply filter_ext. intros R. apply andb_diag.
  - rewrite filter_and. apply filter_ext. intros R.
    rewrite (keepLicense_and term f R T). apply andb_comm.
  - rewrite filter_and. apply filter_ext. intros R.
    symmetry. apply keepLicense_and.
  - rewrite (filter_split_length _ (fun R => keepLicense term show_expired R
                                                {| wallClock := T |})).
    f_equal; f_equal; apply filter_ext; intros R.
    + symmetry. apply keepLicense_expired.
    + symmetry. apply keepLicense_active.
  - rewrite filter_and. apply filter_ext. intros R.
    apply eq_true_iff_eq. rewrite andb_true_iff, !keepLicense_iff.
    cbn [matchesStatus]. split; [intros [_ H]; exact H |].
    intros [Hs He]. repeat split; try assumption. rewrite He. discriminate.
Qed.

(** *** Searching *)

Lemma append_assoc (a b c : string) :
  ((a ++ b) ++ c = a ++ b ++ c)%string.
Proof. induction a as [|x a IH]; cbn; [reflexivity | now rewrite IH]. Qed.

Lemma Substring_trans (a b c : string) :
  Substring a b -> Substring b c -> Substring a c.
Proof.
  intros (p1 & q1 & ->) (p2 & q2 & ->).
  exists (p2 ++ p1)%string, (q1 ++ q2)%string.
  now rewrite !append_assoc.
Qed.

Lemma Substring_refl (a : string) : Substring a a.
Proof.
  exists "", "". cbn. induction a as [|x a IH]; cbn; [reflexivity | now f_equal].
Qed.

Lemma matchesSearch_narrow (t t' : string) (R : License) :
  Substring (Js.toLowerCase engine t) (Js.toLowerCase engine t') ->
  matchesSearch t' R -> matchesSearch t R.
Proof.
  intros Htt [Hk | (h & Hh & Hs)].
  - left. now apply (Substring_trans _ (Js.toLowerCase engine t')).
  - right. exists h. split; [exact Hh |].
    now apply (Substring_trans _ (Js.toLowerCase engine t')).
Qed.

(** Searching at one clock reading.  Terms with the same lower-case form
    give the same rows.  When the lower-case form of a term occurs in the
    lower-case form of another, the rows for the second are found by
    searching the rows for the first.  A record that passes the status
    filter is found by its full key, and by its full hardware identifier. *)
Theorem search_properties (licenses : list License) (f : FilterStatus) (T : Z) :
  let env := {| wallClock := T |} in
  let found term := filteredLicenses licenses term f env in
  (forall t t', Js.toLowerCase engine t = Js.toLowerCase engine t' ->
                found t = found t')
  /\ (forall t t',
        Substring (Js.toLowerCase engine t) (Js.toLowerCase engine t') ->
        filteredLicenses (found t) t' f env = found t')
  /\ (forall R, In R licenses -> matchesStatus f R env ->
                In R (found (license_key R))
                /\ (forall h, hwid R = Some h -> In R (found h))).
Proof.
  cbv zeta. unfold filteredLicenses, filterA. repeat apply conj.
  - intros t t' Hcase. apply filter_ext. intros R.
    apply eq_true_iff_eq. rewrite !keepLicense_iff.
    unfold matchesSearch. now rewrite Hcase.
  - intros t t' Htt. rewrite filter_and. apply filter_ext. intros R.
    apply eq_true_iff_eq. rewrite andb_true_iff, !keepLicense_iff. split.
    + intros [_ H]. exact H.
    + intros [Hs Hf]. repeat split; try assumption.
      now apply (matchesSearch_narrow t t').
  - intros R Hin Hf. split.
    + apply filter_In. split; [exact Hin |]. apply keepLicense_iff.
      split; [| exact Hf]. left. apply Substring_refl.
    + intros h Hh. apply filter_In. split; [exact Hin |]. apply keepLicense_iff.
      split; [| exact Hf]. right. exists h. split; [exact Hh |].
      apply Substring_refl.
Qed.

(** *** The counters and the filters *)

Lemma filter_all {A : Type} (l : list A) : filter (fun _ => true) l = l.
Proof. induction l as [|x l IH]; [reflexivity |]. cbn [filter]. now rewrite IH. Qed.

Lemma count_bounds {A : Type} (p : A -> bool) (l : list A) :
  0 <= count p l <= Z.of_nat (List.length l).
Proof.
  unfold count. pose proof (filter_length_le p l). lia.
Qed.

Lemma count_disjoint {A : Type} (p q : A -> bool) (l : list A) :
  (forall x, p x && q x = false) ->
  count p l + count q l <= Z.of_nat (List.length l).
Proof.
  intros Hpq. induction l as [|x l IH]; [cbn; lia |].
  rewrite !count_cons. specialize (Hpq x).
  destruct (p x), (q x); try discriminate; cbn [List.length]; lia.
Qed.

Lemma keepLicense_empty_term (f : FilterStatus) (R : License) (T : Z) :
  keepLicense "" f R {| wallClock := T |}
  = match f with
    | show_all => true
    | show_expired => Js.lt (Date_parse (expires_at R)) (Some T)
    | show_active => negb (Js.lt (Date_parse (expires_at R)) (Some T))
    | show_expiring =>
        Status_eqb (getLicenseStatus R {| wallClock := T |}) expiring
    end.
Proof.
  unfold keepLicense, bind, ret, Date_now. cbn [wallClock].
  rewrite toLowerCase_nil.
  rewrite includes_empty. cbn [orb negb wallClock].
  destruct f; try reflexivity.
  rewrite getLicenseStatus_unfold.
  destruct (Date_parse (expires_at R)) as [t|]; cbn [Js.lt Js.sub].
  - rewrite div_le_sevenDays.
    destruct (t <? T), (t - T <=? sevenDays), (Js.truthy (hwid R)); reflexivity.
  - destruct (Js.truthy (hwid R)); reflexivity.
Qed.

Lemma expired_class (R : License) (T : Z) :
  Status_eqb (getLicenseStatus R {| wallClock := T |}) expired
  = Js.lt (Date_parse (expires_at R)) (Some T).
Proof.
  rewrite getLicenseStatus_unfold.
  destruct (Date_parse (expires_at R)) as [t|]; cbn [Js.lt].
  - destruct (t <? T), (t - T <=? sevenDays), (Js.truthy (hwid R)); reflexivity.
  - destruct (Js.truthy (hwid R)); reflexivity.
Qed.

Lemma count_mono {A : Type} (p q : A -> bool) (l : list A) :
  (forall x, p x = true -> q x = true) -> count p l <= count q l.
Proof.
  intros Hpq. induction l as [|x l IH]; [reflexivity |].
  rewrite !count_cons. specialize (Hpq x).
  destruct (p x), (q x); try lia; discriminate (Hpq eq_refl).
Qed.

(** The counters, computed at the clock reading [T], against the rows
    that the filter gives for the empty search term at a reading [T'].
    Each counter lies between 0 and the total; a record is never counted
    both as active and as available, nor both as expired and as available;
    the expired counter is the number of records the classifier calls
    expired at [T].  At every [T'] the total is the number of rows without
    a status filter, and of the [expired] and [active] rows together.  When
    [T'] is [T], the expired counter is the number of [expired] rows and
    total minus expired the number of [active] rows; when [T'] is later,
    the expired counter is at most the number of [expired] rows. *)
Theorem stats_bounds (licenses : list License) (T T' : Z) :
  let st := stats licenses {| wallClock := T |} in
  let rows f :=
    Z.of_nat (List.length (filteredLicenses licenses "" f {| wallClock := T' |})) in
  0 <= Stats.active st <= Stats.total st
  /\ 0 <= Stats.expired st <= Stats.total st
  /\ 0 <= Stats.available st <= Stats.total st
  /\ Stats.active st + Stats.available st <= Stats.total st
  /\ Stats.expired st + Stats.available st <= Stats.total st
  /\ Stats.expired st
     = Z.of_nat (List.length (statusClass {| wallClock := T |} expired licenses))
  /\ Stats.total st = rows show_all
  /\ Stats.total st = rows show_expired + rows show_active
  /\ (T = T' ->
      Stats.expired st = rows show_expired
      /\ Stats.total st - Stats.expired st = rows show_active)
  /\ (T <= T' -> Stats.expired st <= rows show_expired).
Proof.
  cbv zeta. unfold stats, bind, ret, Date_now.
  cbn [wallClock Stats.total Stats.active Stats.expired Stats.available].
  assert (Hrows : forall f,
    filteredLicenses licenses "" f {| wallClock := T' |}
    = filter (fun R => match f with
                       | show_all => true
                       | show_expired => Js.lt (Date_parse (expires_at R)) (Some T')
                       | show_active =>
                           negb (Js.lt (Date_parse (expires_at R)) (Some T'))
                       | show_expiring =>
                           Status_eqb (getLicenseStatus R {| wallClock := T' |})
                                      expiring
                       end) licenses).
  { intros f. unfold filteredLicenses, filterA. apply filter_ext.
    intros R. apply keepLicense_empty_term. }
  pose proof (filter_split_length (fun _ : License => true)
                (fun R => Js.lt (Date_parse (expires_at R)) (Some T'))
                licenses) as Hsplit.
  cbn [andb] in Hsplit. rewrite filter_all in Hsplit.
  repeat apply conj; try apply count_bounds.
  - apply count_disjoint. intros R. destruct (hwid R); reflexivity.
  - apply count_disjoint. intros R. unfold Js.gt, Js.lt, isNull.
    destruct (hwid R), (Date_parse (expires_at R)) as [t|]; cbn;
      try reflexivity;
      destruct (Z.ltb_spec t T), (Z.ltb_spec T t); try reflexivity; lia.
  - unfold statusClass, classOf, count. do 2 f_equal. apply filter_ext.
    intros R. symmetry. apply expired_class.
  - now rewrite (Hrows show_all), filter_all.
  - rewrite (Hrows show_expired), (Hrows show_active). lia.
  - intros <-. rewrite (Hrows show_expired), (Hrows show_active).
    unfold count. split; [reflexivity | lia].
  - intros HT. rewrite (Hrows show_expired).
    apply (count_mono _ (fun R => Js.lt (Date_parse (expires_at R)) (Some T'))).
    intros R. unfold Js.lt. destruct (Date_parse (expires_at R)) as [t|];
      [| discriminate].
    rewrite !Z.ltb_lt. lia.
Qed.

(** *** Sorting twice, and sorting a filtered list *)

Section KeyedSort.
Context {A : Type} (comparefn : A -> A -> Js.number) (key : A -> Z).
Hypothesis after_key : forall a b, Js.after comparefn a b = (key b <? key a).

Lemma insert_head (x : A) (l : list A) :
  Forall (fun y => key x <= key y) l -> Js.insert comparefn x l = x :: l.
Proof using after_key.
  intros Hall. destruct Hall as [|y l Hy _]; [reflexivity |].
  cbn [Js.insert]. rewrite after_key.
  destruct (Z.ltb_spec (key y) (key x)); [lia | reflexivity].
Qed.

Lemma sort_fixed (l : list A) :
  StronglySorted (fun a b => key a <= key b) l -> Js.stableSort comparefn l = l.
Proof using after_key.
  induction 1 as [|x l Hs IH Hx]; [reflexivity |].
  cbn [Js.stableSort fold_right]. fold (Js.stableSort comparefn l).
  rewrite IH. now apply insert_head.
Qed.

Lemma insert_filter (p : A -> bool) (x : A) (l : list A) :
  StronglySorted (fun a b => key a <= key b) l ->
  filter p (Js.insert comparefn x l)
  = if p x then Js.insert comparefn x (filter p l) else filter p l.
Proof using after_key.
  induction 1 as [|y l Hs IH Hy].
  - cbn. destruct (p x); reflexivity.
  - cbn [Js.insert]. rewrite after_key.
    destruct (Z.ltb_spec (key y) (key x)) as [Hlt|Hge].
    + cbn [filter]. rewrite IH.
      destruct (p x), (p y); cbn [Js.insert]; try reflexivity.
      rewrite after_key.
      destruct (Z.ltb_spec (key y) (key x)); [reflexivity | lia].
    + set (yl := y :: l).
      change (filter p (x :: yl))
        with (if p x then x :: filter p yl else filter p yl).
      destruct (p x); [| reflexivity].
      symmetry. apply insert_head.
      apply Forall_forall. intros z Hz. apply filter_In in Hz.
      destruct Hz as [[<- | Hz] _]; [exact Hge |].
      rewrite Forall_forall in Hy. specialize (Hy z Hz). cbn in Hy. lia.
Qed.

Lemma sort_filter (p : A -> bool) (l : list A) :
  Js.stableSort comparefn (filter p l) = filter p (Js.stableSort comparefn l).
Proof using after_key.
  induction l as [|x l IH]; [reflexivity |].
  cbn [filter Js.stableSort fold_right]. fold (Js.stableSort comparefn l).
  rewrite insert_filter by now apply (sort_sorted comparefn key).
  destruct (p x); [| exact IH].
  cbn [Js.stableSort fold_right]. fold (Js.stableSort comparefn (filter p l)).
  now rewrite IH.
Qed.

End KeyedSort.

(** Sorting depends on the comparator only through the pairs of elements
    of the list. *)
Section SortExt.
Context {A : Type} (c1 c2 : A -> A -> Js.number).

Lemma insert_ext (x : A) (l : list A) :
  (forall y, In y l -> Js.after c1 x y = Js.after c2 x y) ->
  Js.insert c1 x l = Js.insert c2 x l.
Proof.
  induction l as [|y l IH]; intros Hxy; [reflexivity |].
  cbn [Js.insert]. rewrite (Hxy y) by now left.
  rewrite IH by (intros z Hz; apply Hxy; now right). reflexivity.
Qed.

Lemma sort_ext_in (l : list A) :
  (forall a b, In a l -> In b l -> Js.after c1 a b = Js.after c2 a b) ->
  Js.stableSort c1 l = Js.stableSort c2 l.
Proof.
  induction l as [|x l IH]; intros Hab; [reflexivity |].
  cbn [Js.stableSort fold_right]. fold (Js.stableSort c1 l). fold (Js.stableSort c2 l).
  rewrite IH by (intros a b Ha Hb; apply Hab; now right).
  apply insert_ext. intros y Hy. apply Hab; [now left | right].
  eapply Permutation_in; [apply sort_perm | exact Hy].
Qed.

End SortExt.



Lemma after_expiry (d : SortDirection) (env : Env) (a b : License) :
  Date_parse (expires_at a) <> None ->
  Date_parse (expires_at b) <> None ->
  Js.after (fun a b => compareLicenses (byExpiry d) a b env) a b
  = Js.after (fun a b => Some ((instant a - instant b) * directionSign d)) a b.
Proof.
  unfold Js.after, compareLicenses, byExpiry, instant, ret.
  cbn [field direction].
  destruct (Date_parse (expires_at a)), (Date_parse (expires_at b));
    try congruence.
  intros _ _. destruct d; reflexivity.
Qed.

(** Sorting by expiry when every [expires_at] parses: the result is in the
    order of the instants (reversed for [desc]); sorting it again changes
    nothing; and a filter can be applied before or after the sort. *)
Theorem sort_by_expiry_compose (records : list License) (d : SortDirection)
    (env : Env) :
  Forall (fun R => Date_parse (expires_at R) <> None) records ->
  let sorted l := sortedLicenses l (byExpiry d) env in
  StronglySorted
    (fun a b => directionSign d * instant a <= directionSign d * instant b)
    (sorted records)
  /\ sorted (sorted records) = sorted records
  /\ (forall p, sorted (filter p records) = filter p (sorted records)).
Proof.
  intros Hvalid. cbv zeta. unfold sortedLicenses.
  set (c1 := fun a b => compareLicenses (byExpiry d) a b env).
  set (c2 := fun a b : License =>
               Some ((instant a - instant b) * directionSign d)).
  assert (Hkey : forall a b, Js.after c2 a b
                             = (directionSign d * instant b
                                <? directionSign d * instant a)).
  { intros a b. unfold Js.after, c2. cbn [Js.gt Js.lt].
    destruct d; cbn [directionSign];
      match goal with
      | |- (?x <? ?y) = (?u <? ?v) =>
          destruct (Z.ltb_spec x y), (Z.ltb_spec u v); lia
      end. }
  assert (Hsame : forall l, Forall (fun R => Date_parse (expires_at R) <> None) l ->
                            Js.sort engine c1 l = Js.stableSort c2 l).
  { intros l Hl.
    rewrite sort_consistent by now apply (expiry_consistent (byExpiry d)).
    apply sort_ext_in. intros a b Ha Hb.
    rewrite Forall_forall in Hl. apply after_expiry; now apply Hl. }
  assert (Hvalid' : Forall (fun R => Date_parse (expires_at R) <> None)
                           (Js.stableSort c2 records)).
  { eapply Permutation_Forall; [symmetry; apply sort_perm | exact Hvalid]. }
  rewrite (Hsame records Hvalid). repeat apply conj.
  - apply (sort_sorted _ _ Hkey).
  - rewrite (Hsame _ Hvalid'). apply (sort_fixed _ _ Hkey).
    apply (sort_sorted _ _ Hkey).
  - intros p. rewrite Hsame.
    + now apply (sort_filter _ _ Hkey).
    + apply Forall_forall. intros R HR. apply filter_In in HR.
      rewrite Forall_forall in Hvalid. now apply Hvalid.
Qed.

(** *** What a view shows *)

Lemma setCurrentPage_same (s : AppState) : setCurrentPage (currentPage s) s = s.
Proof. destruct s; reflexivity. Qed.

(** An action leaves the memoised values of its first render, and its
    state up to the page index. *)
Lemma dispatch_first (r : Rendered) (a : Action) (env : Env) :
  let first := render r (replacesLicenses a) (replacesSortConfig a)
                      (perform r a) env in
  memoFiltered (dispatch r a env) = memoFiltered first
  /\ memoSorted (dispatch r a env) = memoSorted first
  /\ exists page,
       state (dispatch r a env) = setCurrentPage page (perform r a).
Proof.
  cbv zeta. unfold dispatch, bind.
  set (first := render r _ _ (perform r a) env).
  assert (Hst : state first = perform r a) by reflexivity.
  rewrite (settle_once 0).
  destruct (_ =? _).
  - repeat split. exists (currentPage (perform r a)).
    now rewrite Hst, setCurrentPage_same.
  - repeat split. cbn [state]. rewrite Hst. now eexists.
Qed.

Lemma render_fresh (r : Rendered) (a : Action) (env : Env) :
  memoFresh r ->
  memoFresh (render r (replacesLicenses a) (replacesSortConfig a)
                    (perform r a) env).
Proof.
  intros [[envF HF] [envS HS]]. unfold memoFresh, render.
  cbn [state memoFiltered memoSorted].
  destruct a; cbn [replacesLicenses replacesSortConfig perform orb
                   setSearchTerm setFilterStatus setPageSize setLicenses
                   setCurrentPage setSortConfig licenses searchTerm
                   filterStatus sortConfig];
    rewrite ?String.eqb_refl, ?FilterStatus_eqb_refl; cbn [negb orb].
  - destruct (String.eqb_spec value (searchTerm (state r))) as [->|_];
      cbn [negb orb]; split; eauto.
  - destruct (FilterStatus_eqb value (filterStatus (state r))) eqn:E;
      cbn [negb orb]; [| split; eauto].
    assert (value = filterStatus (state r)) as ->
      by (destruct value, (filterStatus (state r)); try discriminate; reflexivity).
    split; eauto.
  - split; eauto.
  - split; eauto.
  - split; eauto.
  - split; eauto.
  - split; eauto.
Qed.

Lemma mount_first (env : Env) :
  mount env
  = {| state := initialState;
       memoFiltered := filteredLicenses [] "" show_all env;
       memoSorted :=
         sortedLicenses (filteredLicenses [] "" show_all env)
                        {| field := by_expires_at; direction := asc |} env |}.
Proof. reflexivity. Qed.

Lemma reachable_fresh (r : Rendered) :
  reachable r -> memoFresh r /\ In (pageSize (state r)) [10; 25; 50].
Proof.
  induction 1 as [env | r a env _ [IHf IHp] Hoff].
  - rewrite mount_first. split; [split; exists env; reflexivity | cbn; tauto].
  - destruct (dispatch_first r a env) as (HF & HS & page & Hst).
    pose proof (render_fresh r a env IHf) as [[envF HF'] [envS HS']].
    cbn [state] in HF', HS'. split.
    + unfold memoFresh. rewrite HF, HS, Hst. split.
      * exists envF. exact HF'.
      * exists envS. exact HS'.
    + rewrite Hst. destruct a; cbn in *; tauto.
Qed.

Lemma In_slice {A : Type} (x : A) (l : list A) (i j : Z) :
  In x (Js.slice l i j) -> In x l.
Proof.
  unfold Js.slice. intros Hx.
  rewrite <- (firstn_skipn (Z.to_nat (Js.relativeIndex (Z.of_nat (List.length l)) i)) l).
  apply in_or_app. right.
  set (tail := skipn _ l) in *.
  rewrite <- (firstn_skipn (Z.to_nat (Z.max
     (Js.relativeIndex (Z.of_nat (List.length l)) j
      - Js.relativeIndex (Z.of_nat (List.length l)) i) 0)) tail).
  apply in_or_app. now left.
Qed.

(** In every view the component reaches, the memoised lists are those of
    the current state; the sorted list is a rearrangement of the filtered
    one; and the rows of the page are at most [pageSize] records of the
    current list, each matching the current search term. *)
Theorem view_shows_current_list (r : Rendered) :
  reachable r ->
  memoFresh r
  /\ Permutation (memoSorted r) (memoFiltered r)
  /\ (List.length (memoSorted r) <= List.length (licenses (state r)))%nat
  /\ Z.of_nat (List.length (renderedPage r)) <= pageSize (state r)
  /\ (forall R, In R (renderedPage r) ->
                In R (licenses (state r))
                /\ matchesSearch (searchTerm (state r)) R).
Proof.
  intros Hr. destruct (reachable_fresh r Hr) as [Hfresh Hsize].
  destruct Hfresh as [[[TF] HF] [envS HS]].
  assert (Hperm : Permutation (memoSorted r) (memoFiltered r)).
  { rewrite HS. apply sort_rearranges. }
  split; [split; eauto |]. split; [exact Hperm |]. repeat apply conj.
  - rewrite (Permutation_length Hperm), HF. apply filter_length_le.
  - unfold renderedPage, paginatedLicenses. apply slice_length.
    cbn in Hsize. lia.
  - intros R HR. unfold renderedPage, paginatedLicenses in HR.
    apply In_slice in HR. apply (Permutation_in _ Hperm) in HR.
    rewrite HF in HR. apply filter_In in HR. destruct HR as [Hin Hkeep].
    split; [exact Hin |]. apply keepLicense_iff in Hkeep. tauto.
Qed.

Lemma page_range_of_reachable (r : Rendered) : reachable r -> pageInRange r.
Proof.
  induction 1 as [env | r a env _ IH _];
    [apply mount_in_range | now apply dispatch_in_range].
Qed.

(** *** The paging buttons and the column headers *)

Lemma totalPages_length (l l' : list License) (size : Z) :
  List.length l = List.length l' -> totalPages l size = totalPages l' size.
Proof. unfold totalPages. now intros ->. Qed.

Lemma dispatch_page_only (r : Rendered) (a : Action) (env : Env) (page : Z) :
  pageInRange r ->
  replacesLicenses a = false -> replacesSortConfig a = false ->
  perform r a = setCurrentPage page (state r) ->
  1 <= page <= renderedTotalPages r ->
  dispatch r a env
  = {| state := setCurrentPage page (state r);
       memoFiltered := memoFiltered r; memoSorted := memoSorted r |}.
Proof.
  intros Hr HL HS Hp Hpage. unfold dispatch, bind.
  rewrite HL, HS, Hp, render_page_only, (settle_once 0), effects_last.
  set (next := {| state := _; memoFiltered := _; memoSorted := _ |}).
  assert (HT : renderedTotalPages next = renderedTotalPages r) by reflexivity.
  assert (Hcur : currentPage (state next) = page) by reflexivity.
  assert (Hsame : searchTerm (state next) = searchTerm (state r)
                  /\ filterStatus (state next) = filterStatus (state r)
                  /\ pageSize (state next) = pageSize (state r))
    by (repeat split).
  destruct Hsame as (-> & -> & ->).
  rewrite HT, Hcur, String.eqb_refl, FilterStatus_eqb_refl, !Z.eqb_refl.
  cbn [negb orb].
  destruct (Z.ltb_spec (renderedTotalPages r) page); [lia |].
  rewrite andb_false_r, Z.eqb_refl. reflexivity.
Qed.

(** The page index after a change of the search term, the status filter
    or the page size made on a view whose page index is in range: page 1
    when the new list still has as many pages as the page that was shown,
    and the last page of the new list when it has fewer (the clamp is
    queued after the reset).  After the list itself is replaced, the page
    stays, or becomes the last page when there are fewer pages now. *)
Theorem page_after_action (r : Rendered) (a : Action) (env : Env) :
  pageInRange r ->
  let p := currentPage (state r) in
  let next := dispatch r a env in
  let T' := renderedTotalPages next in
  (changesResetDeps r a = true ->
     currentPage (state next) = if T' <? p then T' else 1)
  /\ (forall rows, a = ReplaceLicenses rows ->
        currentPage (state next) = Z.min p T').
Proof.
  intros Hr. cbv zeta.
  destruct (dispatch_page r a env Hr) as [Hpage HT]. cbv zeta in Hpage, HT.
  rewrite HT, Hpage. split.
  - intros Hchange. rewrite Hchange.
    destruct a; try discriminate; reflexivity.
  - intros rows ->. cbn [changesResetDeps perform currentPage setLicenses].
    match goal with
    | |- (if ?x <? ?y then _ else _) = _ => destruct (Z.ltb_spec x y); lia
    end.
Qed.

(** The "next" and "previous" buttons on a view whose page index is in
    range: "next" moves one page forward and stops at the last page,
    "previous" moves one page back and stops at page 1; at those ends the
    view stays exactly as it is; neither changes the lists or the number of
    pages; and "previous" after "next" comes back to the page it left. *)
Theorem paging_buttons (r : Rendered) (env env' : Env) :
  pageInRange r ->
  let p := currentPage (state r) in
  let T := renderedTotalPages r in
  let next := dispatch r ClickNext env in
  let prev := dispatch r ClickPrev env in
  currentPage (state next) = Z.min T (p + 1)
  /\ currentPage (state prev) = Z.max 1 (p - 1)
  /\ (p = T -> next = r)
  /\ (p = 1 -> prev = r)
  /\ memoSorted next = memoSorted r /\ memoSorted prev = memoSorted r
  /\ renderedTotalPages next = T /\ renderedTotalPages prev = T
  /\ (p < T -> currentPage (state (dispatch next ClickPrev env')) = p).
Proof.
  intros Hr. cbv zeta. unfold pageInRange in Hr.
  assert (Hnext : dispatch r ClickNext env
                  = {| state := setCurrentPage
                                  (Z.min (renderedTotalPages r)
                                         (currentPage (state r) + 1)) (state r);
                       memoFiltered := memoFiltered r;
                       memoSorted := memoSorted r |}).
  { apply dispatch_page_only; try reflexivity; [exact Hr | lia]. }
  assert (Hprev : dispatch r ClickPrev env
                  = {| state := setCurrentPage
                                  (Z.max 1 (currentPage (state r) - 1)) (state r);
                       memoFiltered := memoFiltered r;
                       memoSorted := memoSorted r |}).
  { apply dispatch_page_only; try reflexivity; [exact Hr | lia]. }
  rewrite Hnext, Hprev. repeat apply conj; try reflexivity.
  - intros Hp.
    replace (Z.min (renderedTotalPages r) (currentPage (state r) + 1))
      with (currentPage (state r)) by lia.
    rewrite setCurrentPage_same. destruct r; reflexivity.
  - intros Hp.
    replace (Z.max 1 (currentPage (state r) - 1))
      with (currentPage (state r)) by lia.
    rewrite setCurrentPage_same. destruct r; reflexivity.
  - intros Hp.
    set (next := {| state := _; memoFiltered := _; memoSorted := _ |}).
    assert (Hn : pageInRange next).
    { unfold pageInRange, next, renderedTotalPages. cbn. 
      fold (renderedTotalPages r). lia. }
    rewrite (dispatch_page_only next ClickPrev env'
               (Z.max 1 (currentPage (state next) - 1)) Hn);
      try reflexivity.
    + cbn. lia.
    + unfold pageInRange in Hn. lia.
Qed.

(** A click on a column header in a reachable view selects that column,
    ascending unless the column was already selected, in which case the
    direction flips; it keeps the page index, the number of pages and the
    filtered list, and shows the same records in the new order. *)
Theorem sort_click (r : Rendered) (f : SortField) (env : Env) :
  reachable r ->
  let clicked := dispatch r (ClickSort f) env in
  let before := sortConfig (state r) in
  field (sortConfig (state clicked)) = f
  /\ direction (sortConfig (state clicked))
     = (if SortField_eqb (field before) f
        then match direction before with asc => desc | desc => asc end
        else asc)
  /\ currentPage (state clicked) = currentPage (state r)
  /\ renderedTotalPages clicked = renderedTotalPages r
  /\ memoFiltered clicked = memoFiltered r
  /\ memoSorted clicked
     = sortedLicenses (memoFiltered r) (sortConfig (state clicked)) env
  /\ Permutation (memoSorted clicked) (memoSorted r).
Proof.
  intros Hr. cbv zeta.
  pose proof (page_range_of_reachable r Hr) as Hrange.
  destruct (reachable_fresh r Hr) as [[_ [envS HS]] _].
  destruct (dispatch_first r (ClickSort f) env) as (HF & HSo & page & Hst).
  destruct (dispatch_page r (ClickSort f) env Hrange) as [Hpage HT].
  cbv zeta in Hpage, HT.
  assert (Hfirst :
    render r (replacesLicenses (ClickSort f)) (replacesSortConfig (ClickSort f))
           (perform r (ClickSort f)) env
    = {| state := perform r (ClickSort f);
         memoFiltered := memoFiltered r;
         memoSorted := sortedLicenses (memoFiltered r)
                         (handleSort f (sortConfig (state r))) env |}).
  { unfold render. cbn [perform replacesLicenses replacesSortConfig
                         setSortConfig searchTerm filterStatus sortConfig orb].
    now rewrite String.eqb_refl, FilterStatus_eqb_refl. }
  rewrite Hfirst in HF, HSo, Hpage, HT. cbn [memoFiltered memoSorted] in HF, HSo.
  assert (Hlen : List.length (sortedLicenses (memoFiltered r)
                                (handleSort f (sortConfig (state r))) env)
                 = List.length (memoSorted r)).
  { rewrite HS. etransitivity; [apply Permutation_length, sort_rearranges |].
    symmetry. apply Permutation_length, sort_rearranges. }
  assert (HT' : renderedTotalPages
                  {| state := perform r (ClickSort f);
                     memoFiltered := memoFiltered r;
                     memoSorted := sortedLicenses (memoFiltered r)
                                     (handleSort f (sortConfig (state r))) env |}
                = renderedTotalPages r).
  { unfold renderedTotalPages. cbn [memoSorted state perform setSortConfig pageSize].
    now apply totalPages_length. }
  rewrite HT' in Hpage, HT.
  assert (Hcfg : sortConfig (state (dispatch r (ClickSort f) env))
                 = handleSort f (sortConfig (state r))).
  { rewrite Hst. reflexivity. }
  rewrite Hcfg. repeat apply conj.
  - unfold handleSort. destruct (SortField_eqb _ f); reflexivity.
  - unfold handleSort. destruct (SortField_eqb _ f); reflexivity.
  - rewrite Hpage. cbn [perform setSortConfig currentPage changesResetDeps].
    unfold pageInRange in Hrange.
    destruct (Z.ltb_spec (renderedTotalPages r) (currentPage (state r)));
      [lia | reflexivity].
  - exact HT.
  - exact HF.
  - exact HSo.
  - rewrite HSo, HS. etransitivity; [apply sort_rearranges |].
    symmetry. apply sort_rearranges.
Qed.

(** *** The connection service *)

(** Saving, reading and clearing the stored credentials.  Credentials
    that were saved are read back as they are when the address and the key
    are both non-empty, and not at all otherwise; after clearing nothing is
    read back and the module has no client; saving keeps the client; and
    neither touches an item stored under another name. *)
Theorem stored_credentials (creds : Credentials.t) (sv : Service) :
  let saved := saveCredentials creds sv in
  let cleared := clearCredentials sv in
  getStoredCredentials saved
    = (if negb (String.eqb (Credentials.url creds) "")
          && negb (String.eqb (Credentials.key creds) "")
       then Some creds else None)
  /\ getStoredCredentials cleared = None
  /\ getSupabaseClient cleared = None
  /\ getSupabaseClient saved = getSupabaseClient sv
  /\ getStoredCredentials (clearCredentials saved) = None
  /\ getStoredCredentials (saveCredentials creds cleared)
     = getStoredCredentials saved
  /\ (forall name, name <> "sb_url" -> name <> "sb_key" ->
        getItem name (localStorage saved) = getItem name (localStorage sv)
        /\ getItem name (localStorage cleared) = getItem name (localStorage sv)).
Proof.
  cbv zeta. destruct creds as [u k].
  unfold getStoredCredentials, saveCredentials, clearCredentials,
    getSupabaseClient, getItem, setItem, removeItem.
  cbn [localStorage supabaseInstance Credentials.url Credentials.key
       String.eqb Ascii.eqb Bool.eqb andb].
  rewrite !truthy_Some, !orEmpty_Some.
  repeat apply conj; try reflexivity.
  intros name Hu Hk.
  apply String.eqb_neq in Hu, Hk. rewrite Hu, Hk. split; reflexivity.
Qed.

Section Connecting.

Variable validUrl : string -> bool.
Variable createClient : string -> string -> JsError + SupabaseClient.

Lemma initSupabase_cases (creds : Credentials.t) (sv : Service) :
  if canConnect validUrl createClient creds
  then exists client,
      createClient (Credentials.url creds) (Credentials.key creds) = inr client
      /\ initSupabase validUrl createClient creds sv
         = ({| InitResult.success := true; InitResult.error := None |},
            {| supabaseInstance := Some client;
               localStorage := localStorage sv |})
  else exists text,
      text <> ""
      /\ initSupabase validUrl createClient creds sv
         = ({| InitResult.success := false; InitResult.error := Some text |}, sv).
Proof.
  unfold canConnect, initSupabase.
  destruct (Js.truthy (Some (Credentials.url creds))); cbn [negb andb];
    [| eexists; split; [| reflexivity]; discriminate].
  destruct (Js.truthy (Some (Credentials.key creds))); cbn [negb andb];
    [| eexists; split; [| reflexivity]; discriminate].
  destruct (validUrl (Credentials.url creds)); cbn [negb andb];
    [| eexists; split; [| reflexivity]; discriminate].
  destruct (createClient _ _) as [e|client].
  - eexists. split; [| reflexivity].
    unfold orElse. destruct (message e); cbn; discriminate.
  - exists client. split; reflexivity.
Qed.

(** [initSupabase] succeeds exactly when the address and the key are
    non-empty, the address is a valid URL and [createClient] returns.  On
    success the client is the one made from the credentials and no error is
    reported; on failure the module keeps the client it had and the result
    carries a non-empty message, the one about the address when the address
    is empty.  The stored credentials are never touched. *)
Theorem initSupabase_spec (creds : Credentials.t) (sv : Service) :
  let result := fst (initSupabase validUrl createClient creds sv) in
  let sv' := snd (initSupabase validUrl createClient creds sv) in
  (InitResult.success result = true
   <-> Credentials.url creds <> "" /\ Credentials.key creds <> ""
       /\ validUrl (Credentials.url creds) = true
       /\ exists client,
            createClient (Credentials.url creds) (Credentials.key creds)
            = inr client)
  /\ (InitResult.success result = true ->
      InitResult.error result = None
      /\ exists client,
           createClient (Credentials.url creds) (Credentials.key creds)
           = inr client
           /\ getSupabaseClient sv' = Some client)
  /\ (InitResult.success result = false ->
      sv' = sv
      /\ exists text, InitResult.error result = Some text /\ text <> "")
  /\ localStorage sv' = localStorage sv
  /\ (Credentials.url creds = "" ->
      InitResult.error result = Some "Supabase URL is required").
Proof.
  cbv zeta. pose proof (initSupabase_cases creds sv) as Hc.
  assert (Hcan : canConnect validUrl createClient creds = true
                 <-> Credentials.url creds <> "" /\ Credentials.key creds <> ""
                     /\ validUrl (Credentials.url creds) = true
                     /\ exists client,
                          createClient (Credentials.url creds)
                                       (Credentials.key creds) = inr client).
  { unfold canConnect. rewrite !andb_true_iff, !truthy_Some, !negb_true_iff.
    rewrite !String.eqb_neq.
    destruct (createClient _ _) as [e|client]; split.
    - intros [_ [=]].
    - intros (_ & _ & _ & c & [=]).
    - intros [[[Hu Hk] Hv] _]. repeat split; try assumption. now exists client.
    - intros (Hu & Hk & Hv & _). repeat split; assumption. }
  destruct (canConnect validUrl createClient creds).
  - destruct Hc as (client & Hmake & ->). cbn [fst snd InitResult.success
      InitResult.error getSupabaseClient supabaseInstance localStorage].
    repeat apply conj.
    + intros _. now apply Hcan.
    + reflexivity.
    + intros _. split; [reflexivity |]. now exists client.
    + discriminate.
    + reflexivity.
    + intros Hu. destruct (proj1 Hcan eq_refl) as [Hne _]. now elim Hne.
  - destruct Hc as (text & Htext & Hinit). repeat apply conj.
    + rewrite Hinit. cbn. discriminate.
    + intros H. apply Hcan in H. discriminate.
    + rewrite Hinit. cbn. discriminate.
    + rewrite Hinit. cbn. intros _. split; [reflexivity |]. now exists text.
    + now rewrite Hinit.
    + intros Hu. unfold initSupabase. rewrite Hu. reflexivity.
Qed.

Lemma credentialsOf_stored (sv : Service) :
  getStoredCredentials sv
  = credentialsOf (getItem "sb_url" (localStorage sv))
                  (getItem "sb_key" (localStorage sv)).
Proof. reflexivity. Qed.

Lemma save_then_read (u k : option string) (sv : Service) :
  Js.truthy u && Js.truthy k = true ->
  getStoredCredentials
    (saveCredentials {| Credentials.url := Js.orEmpty u;
                        Credentials.key := Js.orEmpty k |} sv)
  = credentialsOf u k.
Proof.
  intros Hb. unfold credentialsOf. rewrite Hb.
  destruct u as [[|a u]|], k as [[|b k]|]; try discriminate. reflexivity.
Qed.

(** [initConnection] takes the first source that can be used, in the order
    environment, URL parameters, stored credentials: the client is the one
    made from that source, and the view is connected.  Only the URL
    parameters are saved; the environment and the stored credentials leave
    the storage as it is.  With no usable source the connection flag and
    the service stay as they were.  A source that is given and fails leaves
    a non-empty error message, also when a later source connects; with no
    source given the component state is untouched. *)
Theorem initConnection_priority (envUrl envKey urlParam keyParam : option string)
    (sh : Shell) :
  let fromEnv := credentialsOf envUrl envKey in
  let fromUrl := credentialsOf urlParam keyParam in
  let stored := getStoredCredentials (service sh) in
  let ok := usable validUrl createClient in
  let sh' := initConnection validUrl createClient
                            envUrl envKey urlParam keyParam sh in
  (ok fromEnv = true ->
     isConnected sh' = true
     /\ getSupabaseClient (service sh') = clientOf createClient fromEnv
     /\ localStorage (service sh') = localStorage (service sh)
     /\ component sh' = component sh)
  /\ (ok fromEnv = false -> ok fromUrl = true ->
      isConnected sh' = true
      /\ getSupabaseClient (service sh') = clientOf createClient fromUrl
      /\ getStoredCredentials (service sh') = fromUrl)
  /\ (ok fromEnv = false -> ok fromUrl = false -> ok stored = true ->
      isConnected sh' = true
      /\ getSupabaseClient (service sh') = clientOf createClient stored
      /\ localStorage (service sh') = localStorage (service sh))
  /\ (ok fromEnv = false -> ok fromUrl = false -> ok stored = false ->
      isConnected sh' = isConnected sh /\ service sh' = service sh)
  /\ ((fromEnv <> None /\ ok fromEnv = false)
      \/ (fromUrl <> None /\ ok fromEnv = false /\ ok fromUrl = false) ->
      exists text, error (component sh') = Some text /\ text <> "")
  /\ (fromEnv = None -> fromUrl = None -> component sh' = component sh).
Proof.
  cbv zeta. unfold initConnection.
  set (credsE := {| Credentials.url := Js.orEmpty envUrl;
                    Credentials.key := Js.orEmpty envKey |}).
  set (credsU := {| Credentials.url := Js.orEmpty urlParam;
                    Credentials.key := Js.orEmpty keyParam |}).
  assert (HE : credentialsOf envUrl envKey
               = if Js.truthy envUrl && Js.truthy envKey
                 then Some credsE else None) by reflexivity.
  assert (HU : credentialsOf urlParam keyParam
               = if Js.truthy urlParam && Js.truthy keyParam
                 then Some credsU else None) by reflexivity.
  rewrite HE, HU. clear HE HU.
  pose proof (save_then_read urlParam keyParam) as Hsave. fold credsU in Hsave.
  unfold credentialsOf in Hsave.
  destruct (Js.truthy envUrl && Js.truthy envKey) eqn:Be.
  1: pose proof (initSupabase_cases credsE (service sh)) as IE;
     destruct (canConnect validUrl createClient credsE) eqn:Ce;
     [ destruct IE as (cE & ME & ->) | destruct IE as (tE & NE & ->) ].
  all: cbn [InitResult.success InitResult.error service component isConnected].
  all: destruct (Js.truthy urlParam && Js.truthy keyParam) eqn:Bu.
  all: pose proof (initSupabase_cases credsU (service sh)) as IU;
       destruct (canConnect validUrl createClient credsU) eqn:Cu;
       [ destruct IU as (cU & MU & IU) | destruct IU as (tU & NU & IU) ];
       rewrite ?IU.
  all: cbn [InitResult.success InitResult.error service component isConnected].
  all: destruct (getStoredCredentials (service sh)) as [cs|] eqn:Bs;
       [ pose proof (initSupabase_cases cs (service sh)) as IS;
         destruct (canConnect validUrl createClient cs) eqn:Cs;
         [ destruct IS as (cS & MS & IS) | destruct IS as (tS & NS & IS) ];
         rewrite ?IS
       | ].
  all: cbn [InitResult.success InitResult.error service component isConnected].
  all: unfold usable, clientOf; rewrite ?Ce, ?Cu, ?Cs, ?ME, ?MU, ?MS.
  all: cbn [getSupabaseClient supabaseInstance localStorage setError error].
  all: rewrite ?(Hsave _ eq_refl).
  all: repeat match goal with
       | |- _ /\ _ => split
       | |- _ -> _ => intro
       | H : _ \/ _ |- _ => destruct H
       | H : _ /\ _ |- _ => destruct H
       | H : true = false |- _ => discriminate H
       | H : false = true |- _ => discriminate H
       | H : ?x <> ?x |- _ => now elim H
       | H : Some _ = None |- _ => discriminate H
       | |- ?x = ?x => reflexivity
       end.
  all: try (destruct sh as [c i [inst st]]; reflexivity).
  all: eexists; split; [reflexivity |]; unfold orElse.
  all: try (destruct tE; [now elim NE | discriminate]).
  all: destruct tU; [now elim NU | discriminate].
Qed.

End Connecting.

(** *** Creating, unlocking and deleting a license *)

(** Splits a statement about the outcomes of a handler into its cases. *)
Ltac outcome_cases :=
  repeat match goal with
         | |- _ /\ _ => split
         | |- _ <-> _ => split
         | |- forall _, _ => intro
         | H : _ /\ _ |- _ => destruct H
         | H : _ \/ _ |- _ => destruct H
         | H : exists _, _ |- _ => destruct H
         | H : False |- _ => destruct H
         | H : ?x <> ?x |- _ => now elim H
         | H : _ = _ |- _ => discriminate H
         | |- _ <> _ => discriminate
         | |- ?x = ?x => reflexivity
         | |- (_ <= _)%nat => cbn; lia
         end.

Section Creating.

Variable toISOString : Z -> string.
Variable invalidTime : JsError.

(** [handleCreateLicense] sends at most one request, an insert of a row with
    the key of the form, the typed date as [toISOString] writes it, and no
    hardware identifier; it sends it exactly when there is a client and the
    typed date is a valid one, and never asks for confirmation.  The list
    is fetched again exactly when the insert succeeded, and then the dialog
    is closed with the form reset and nothing is alerted; in every other
    case the dialog and the form are left as they were, and with a client
    one message is alerted. *)
Theorem handleCreateLicense_outcomes (client : option SupabaseClient)
    (response : Awaited (option JsError)) (dialog : AddDialog) :
  let form := newLicense dialog in
  let typed := Date_parse (NewLicense.expiryDate form ++ "T"
                           ++ NewLicense.expiryTime form ++ ":00")%string in
  let out := handleCreateLicense toISOString invalidTime client response dialog in
  let sent := requests (snd out) in
  prompts (snd out) = []
  /\ (List.length sent <= 1)%nat
  /\ (forall q, In q sent ->
        exists t, typed = Some t
          /\ q = insertLicense {| license_key := NewLicense.key form;
                                  expires_at := toISOString t;
                                  hwid := None |})
  /\ (sent <> [] <-> client <> None /\ typed <> None)
  /\ (refetch (snd out) = true
      <-> client <> None /\ typed <> None /\ response = Resolved None)
  /\ (refetch (snd out) = true ->
        fst out = {| isAddModalOpen := false; newLicense := emptyForm |}
        /\ alerts (snd out) = [])
  /\ (refetch (snd out) = false -> fst out = dialog)
  /\ (refetch (snd out) = false -> client <> None ->
        exists err, alerts (snd out) = [createFailed err]).
Proof.
  clear localeCompare. cbv zeta. unfold handleCreateLicense.
  destruct client as [c|];
    [destruct (Date_parse _) as [t|]; cbn [Date_toISOString];
     [destruct response as [[err|]|err] |] |].
  all: cbn [fst snd requests prompts refetch alerts List.length In noEffects].
  all: outcome_cases.
  all: try (subst q; exists t; split; reflexivity).
  all: eexists; reflexivity.
Qed.

(** A license that was just created is never counted as active.  When the
    date written by [toISOString] is read back as the same instant, the new
    license is expired if that instant is before the clock reading,
    expiring if it is at most seven days after it, and available
    otherwise. *)
Theorem created_license_status (client : option SupabaseClient)
    (response : Awaited (option JsError)) (dialog : AddDialog)
    (row : License) (T : Z) :
  In (insertLicense row)
     (requests (snd (handleCreateLicense toISOString invalidTime
                                         client response dialog))) ->
  let s := getLicenseStatus row {| wallClock := T |} in
  s <> active
  /\ (forall t,
        Date_parse (NewLicense.expiryDate (newLicense dialog) ++ "T"
                    ++ NewLicense.expiryTime (newLicense dialog) ++ ":00")%string
        = Some t ->
        Date_parse (toISOString t) = Some t ->
        s = if t <? T then expired
            else if t - T <=? sevenDays then expiring else available).
Proof.
  clear localeCompare. intros Hin.
  assert (Hrow : exists t,
             Date_parse (NewLicense.expiryDate (newLicense dialog) ++ "T"
                         ++ NewLicense.expiryTime (newLicense dialog) ++ ":00")%string
             = Some t
             /\ row = {| license_key := NewLicense.key (newLicense dialog);
                         expires_at := toISOString t; hwid := None |}).
  { revert Hin. unfold handleCreateLicense. destruct client as [c|]; [| intros []].
    destruct (Date_parse _) as [t|]; cbn [Date_toISOString]; [| intros []].
    destruct response as [[err|]|err]; cbn [snd requests In];
      (intros [[= <-] | []]); exists t; split; reflexivity. }
  destruct Hrow as (t & Ht & ->). cbv zeta.
  rewrite getLicenseStatus_unfold. cbn [expires_at hwid Js.truthy].
  split.
  - destruct (Date_parse (toISOString t)) as [t'|];
      [destruct (t' <? T); [| destruct (t' - T <=? sevenDays)] |]; discriminate.
  - intros t0 Ht0 Hround. rewrite Ht in Ht0. injection Ht0 as <-.
    rewrite Hround. reflexivity.
Qed.

End Creating.

(** Unlocking and deleting are guarded: a request is sent exactly when the
    user is authorized, there is a client and the question was confirmed,
    and the question is asked exactly when the first two hold.  The request
    is the one for the given key and nothing else (unlocking never deletes,
    neither inserts).  The list is fetched again exactly when a request was
    sent and succeeded; a message is alerted exactly when a request was
    sent and failed, and it is the failure's message. *)
Theorem guarded_mutations (key : string) (isAuthorized : bool)
    (client : option SupabaseClient) (confirmed : bool)
    (response : Awaited (option JsError)) :
  let unlock := handleResetHWID key isAuthorized client confirmed response in
  let delete := handleDelete key isAuthorized client confirmed response in
  let allowed := isAuthorized = true /\ client <> None in
  let failure err := response = Rejected err \/ response = Resolved (Some err) in
  (requests unlock = [updateHwidNull key] \/ requests unlock = [])
  /\ (requests delete = [deleteLicense key] \/ requests delete = [])
  /\ (requests unlock <> [] <-> allowed /\ confirmed = true)
  /\ (requests delete <> [] <-> allowed /\ confirmed = true)
  /\ (prompts unlock <> [] <-> allowed)
  /\ (prompts delete <> [] <-> allowed)
  /\ (refetch unlock = true
      <-> requests unlock <> [] /\ response = Resolved None)
  /\ (refetch delete = true
      <-> requests delete <> [] /\ response = Resolved None)
  /\ (forall text, In text (alerts unlock)
      <-> requests unlock <> [] /\ exists err, failure err /\ text = message err)
  /\ (forall text, In text (alerts delete)
      <-> requests delete <> [] /\ exists err, failure err /\ text = message err).
Proof.
  clear localeCompare Date_parse. cbv zeta.
  unfold handleResetHWID, handleDelete, guardedRequest.
  destruct isAuthorized, client as [c|], confirmed, response as [[err|]|err];
    cbn [negb requests prompts refetch alerts noEffects In].
  all: outcome_cases.
  all: try (left; reflexivity); try (right; reflexivity).
  all: try (left; congruence).
  all: subst; eexists; split;
    [(left; reflexivity) || (right; reflexivity) | reflexivity].
Qed.

(** *** Signing in *)

(** With a client, [handleLogin] always ends with [authLoading] off and
    makes one sign-in call, with the typed address trimmed and in lower
    case and the password as typed, followed by at most a sign-out.  The
    address in the form is kept; the password is cleared exactly when the
    user was let in, which is when no message is left in [authError], and
    otherwise kept for another try.  A sign-in that fails leaves the
    failure's message and is not followed by a sign-out.  A sign-in that
    succeeds without a user or without an address is let in whatever the
    allow-list is.  After a sign-out the message is the access-denied one,
    or that of the sign-out's own failure.  The list, the error of the list
    and the view settings are not touched; without a client nothing
    happens. *)
Theorem handleLogin_outcomes (admins : list string)
    (response : Awaited SignInResult) (signedOut : Awaited unit)
    (s : AppState) :
  let out := handleLogin engine (Some supabase) admins response signedOut s in
  let s' := fst out in
  let call := signInWithPassword
                (Js.toLowerCase engine (Js.trim engine (form_email (loginForm s))))
                (form_password (loginForm s)) in
  authLoading s' = false
  /\ (snd out = [call] \/ snd out = [call; signOut])
  /\ form_email (loginForm s') = form_email (loginForm s)
  /\ (authError s' = None ->
        form_password (loginForm s') = "" /\ snd out = [call])
  /\ (authError s' <> None ->
        form_password (loginForm s') = form_password (loginForm s))
  /\ (forall err,
        response = Rejected err
        \/ (exists r, response = Resolved r /\ signInError r = Some err) ->
        authError s' = Some (message err) /\ snd out = [call])
  /\ (forall r,
        response = Resolved r -> signInError r = None ->
        signedInUser r = None
        \/ (exists u, signedInUser r = Some u /\ email u = None) ->
        authError s' = None)
  /\ (In signOut (snd out) ->
        authError s' = match signedOut with
                       | Resolved _ => Some accessDenied
                       | Rejected err => Some (message err)
                       end)
  /\ (licenses s' = licenses s /\ loading s' = loading s /\ error s' = error s
      /\ searchTerm s' = searchTerm s /\ filterStatus s' = filterStatus s
      /\ currentPage s' = currentPage s /\ pageSize s' = pageSize s
      /\ sortConfig s' = sortConfig s)
  /\ handleLogin engine None admins response signedOut s = (s, []).
Proof.
  clear localeCompare Date_parse. cbv zeta. unfold handleLogin.
  destruct response as [[[err|] u]|err]; cbn [signInError signedInUser].
  2: destruct (Js.truthy _ && _ && _) eqn:Hdenied; [destruct signedOut |].
  all: cbn [fst snd authLoading authError loginForm form_email form_password
            licenses loading error searchTerm filterStatus currentPage
            pageSize sortConfig setAuthLoading setAuthError setLoginForm In].
  all: outcome_cases.
  all: try (left; reflexivity); try (right; reflexivity).
  all: repeat match goal with
              | H : Resolved _ = Resolved _ |- _ =>
                  injection H as <-; cbn [signInError signedInUser] in *
              | H : Rejected _ = Rejected _ |- _ => injection H as <-
              end.
  all: try congruence.
  all: subst; cbn in Hdenied; try discriminate.
  all: match goal with H : email _ = None |- _ => rewrite H in Hdenied end.
  all: discriminate.
Qed.

End App.

(* ================================================================= *)
(** ** Worked examples on concrete records *)

Lemma isoParse_samples :
  Js.isoParse "1970-01-01T00:00:00.000Z" = Some 0
  /\ Js.isoParse "2026-01-01T00:00:00.000Z" = Some (wallClock Demo.in2026)
  /\ Js.isoParse Demo.year2030 = Some 1893456000000
  /\ Js.isoParse "2000-02-29T23:59:59.999Z" = Some 951868799999
  /\ Js.isoParse "not a date" = Js.NaN.
Proof. repeat split; vm_compute; reflexivity. Qed.

(** A record with a bound [hwid] that expires in three days is [expiring]. *)
Lemma boundSoon_expiring :
  getLicenseStatus Js.isoParse Demo.boundSoon Demo.in2026 = expiring.
Proof. vm_compute. reflexivity. Qed.

(** A record whose [hwid] is the empty string, hence non-null, and which
    is neither expired nor expiring, is classified [available]. *)
Lemma emptyHwid_available :
  hwid Demo.emptyHwid <> None
  /\ ~ expiresBefore Js.isoParse Demo.emptyHwid (wallClock Demo.in2026)
  /\ ~ expiresWithin Js.isoParse Demo.emptyHwid (wallClock Demo.in2026) sevenDays
  /\ getLicenseStatus Js.isoParse Demo.emptyHwid Demo.in2026 = available
  /\ getLicenseStatus Js.isoParse Demo.emptyHwid Demo.in2026 <> active.
Proof.
  split; [discriminate |].
  split; [| split].
  - rewrite expiresBefore_iff. vm_compute. intros H. discriminate H.
  - rewrite expiresWithin_iff. vm_compute. intros H. now apply H.
  - split; [vm_compute; reflexivity | vm_compute; discriminate].
Qed.

(** The same record, passed to the classifier under two clock readings,
    gets two statuses: the result is not determined by the argument. *)
Lemma getLicenseStatus_reads_clock :
  getLicenseStatus Js.isoParse (Demo.unbound "A01") Demo.in2026 = available
  /\ getLicenseStatus Js.isoParse (Demo.unbound "A01") Demo.in2030 = expired
  /\ getLicenseStatus Js.isoParse (Demo.unbound "A01") Demo.in2026
     <> getLicenseStatus Js.isoParse (Demo.unbound "A01") Demo.in2030.
Proof. repeat split; vm_compute; try reflexivity; discriminate. Qed.

Lemma getLicenseStatus_deterministic_witness :
  getLicenseStatus Js.isoParse (Demo.unbound "A01") Demo.in2026
  = getLicenseStatus Js.isoParse (Demo.unbound "B01") Demo.in2026.
Proof.
  apply (getLicenseStatus_deterministic Js.isoParse
           (Demo.unbound "A01") (Demo.unbound "B01") Demo.in2026 Demo.in2026);
    reflexivity.
Defined.



(** Statuses [expired; available; expiring; active] in input order. *)
Lemma sort_by_status_sample :
  let records := [Demo.boundExpired; Demo.unbound "A01"; Demo.boundSoon;
                  {| license_key := "D4"; expires_at := Demo.year2030;
                     hwid := Some "pc" |}] in
  map (fun R => getLicenseStatus Js.isoParse R Demo.in2026) records
  = [expired; available; expiring; active]
  /\ map license_key
         (sortedLicenses Js.isoParse Js.byteCompare Demo.engine records (byStatus asc)
                         Demo.in2026)
     = ["A01"; "D4"; "B2"; "E5"]
  /\ map license_key
         (sortedLicenses Js.isoParse Js.byteCompare Demo.engine records (byStatus desc)
                         Demo.in2026)
     = ["E5"; "B2"; "D4"; "A01"].
Proof. repeat split; vm_compute; reflexivity. Qed.

Lemma paginator_spec_witness :
  1 <= 10 /\ 1 <= 3
  /\ paginatedLicenses Demo.records25 3 10
     = firstn (Z.to_nat 10) (skipn (Z.to_nat ((3 - 1) * 10)) Demo.records25)
  /\ totalPages Demo.records25 10 = 3.
Proof.
  destruct (paginator_spec Demo.records25 10 3 ltac:(lia) ltac:(lia))
    as ((c & Hc & Hclosed & Htotal) & Hpage & _).
  split; [lia |]. split; [lia |]. split; [exact Hpage |].
  rewrite Htotal, Hclosed. reflexivity.
Defined.

Lemma paginator_partition_witness :
  1 <= 10
  /\ List.concat (allPages Demo.records25 10) = Demo.records25
  /\ map (@List.length License) (allPages Demo.records25 10) = [10; 10; 5]%nat.
Proof.
  split; [lia |]. split.
  - apply (paginator_partition Demo.records25 10). lia.
  - vm_compute. reflexivity.
Defined.

(** A signed-in user whose account has no e-mail address is not
    authorized although the allow-list is empty; and with a non-empty list
    that does not list the user, a sign-in of such a user is not followed
    by a sign-out. *)
Lemma unauthorized_without_email :
  let user := {| email := None |} in
  adminEmails Demo.engine None = []
  /\ isAuthorized Demo.engine (Some user) (adminEmails Demo.engine None) = false
  /\ adminEmails Demo.engine (Some "admin@example.com") = ["admin@example.com"]
  /\ isAuthorized Demo.engine (Some user) (adminEmails Demo.engine (Some "admin@example.com")) = false
  /\ snd (handleLogin Demo.engine (Some supabase) (adminEmails Demo.engine (Some "admin@example.com"))
                      (Resolved {| signInError := None;
                                   signedInUser := Some user |})
                      (Resolved tt) initialState)
     = [signInWithPassword "" ""].
Proof. repeat split; vm_compute; reflexivity. Qed.

Lemma authorization_spec_witness :
  let v := Some " Admin@Example.com , ,ops@example.com" in
  let user := {| email := Some "ADMIN@example.COM" |} in
  allowEntries Demo.engine v = ["Admin@Example.com"; "ops@example.com"]
  /\ (isAuthorized Demo.engine (Some user) (adminEmails Demo.engine v) = true
      <-> listed Demo.engine v "ADMIN@example.COM")
  /\ isAuthorized Demo.engine (Some user) (adminEmails Demo.engine v) = true.
Proof.
  cbv zeta. split; [vm_compute; reflexivity |]. split.
  - apply (authorization_spec Demo.engine (Some " Admin@Example.com , ,ops@example.com")
             {| email := Some "ADMIN@example.COM" |} "ADMIN@example.COM");
      [reflexivity | discriminate | vm_compute; discriminate].
  - vm_compute. reflexivity.
Defined.

(** The view after loading the 25 sample licenses and pressing "next"
    twice: page 3 of 3 at ten records a page. *)
Lemma page_three_reachable :
  let run := dispatch Js.isoParse Js.byteCompare Demo.engine in
  let loaded := run (mount Js.isoParse Js.byteCompare Demo.engine Demo.in2026)
                    (ReplaceLicenses Demo.records25) Demo.in2026 in
  let page3 := run (run loaded ClickNext Demo.in2026) ClickNext Demo.in2026 in
  reachable Js.isoParse Js.byteCompare Demo.engine page3
  /\ currentPage (state page3) = 3
  /\ renderedTotalPages page3 = 3
  /\ pageSize (state page3) = 10.
Proof.
  cbv zeta. split.
  - repeat (apply reach_dispatch; [| exact I]). apply reach_mount.
  - vm_compute. repeat split.
Qed.

(** C6, evaluated where the reset to page 1 is lost.  On page 3 of 3,
    typing a search term that keeps 15 of the 25 records (two pages) leaves
    the view on page 2: the reset effect queues page 1, and the clamp effect
    of the same commit queues page 2 after it.  A term that keeps 5 records
    (one page) leaves the view on page 1. *)
Theorem search_from_page_three :
  let run := dispatch Js.isoParse Js.byteCompare Demo.engine in
  let loaded := run (mount Js.isoParse Js.byteCompare Demo.engine Demo.in2026)
                    (ReplaceLicenses Demo.records25) Demo.in2026 in
  let page3 := run (run loaded ClickNext Demo.in2026) ClickNext Demo.in2026 in
  let searchedA := run page3 (TypeSearch "a") Demo.in2026 in
  let searchedB := run page3 (TypeSearch "b") Demo.in2026 in
  (List.length (memoSorted searchedA) = 15%nat
   /\ renderedTotalPages searchedA = 2
   /\ effects page3 (render Js.isoParse Js.byteCompare Demo.engine page3 false false
                            (perform page3 (TypeSearch "a")) Demo.in2026)
      = [1; 2]
   /\ currentPage (state searchedA) = 2)
  /\ (List.length (memoSorted searchedB) = 5%nat
      /\ renderedTotalPages searchedB = 1
      /\ currentPage (state searchedB) = 1).
Proof. vm_compute. repeat split. Qed.

Lemma page_index_in_range_witness :
  let run := dispatch Js.isoParse Js.byteCompare Demo.engine in
  let loaded := run (mount Js.isoParse Js.byteCompare Demo.engine Demo.in2026)
                    (ReplaceLicenses Demo.records25) Demo.in2026 in
  pageInRange (run (run loaded ClickNext Demo.in2026) (TypeSearch "a") Demo.in2026).
Proof.
  cbv zeta. apply (page_index_in_range Js.isoParse Js.byteCompare Demo.engine).
  repeat (apply reach_dispatch; [| exact I]). apply reach_mount.
Defined.

(** A record that expired a day ago: classified [expired], kept by the
    [expired] filter, dropped by the [active] filter; a search is
    case-insensitive and looks into the key and the hardware identifier. *)
Lemma filter_samples :
  let records := [Demo.unboundExpired; Demo.boundSoon; Demo.unbound "A01"] in
  let keys l := map license_key l in
  getLicenseStatus Js.isoParse Demo.unboundExpired Demo.in2026 = expired
  /\ keys (filteredLicenses Js.isoParse Demo.engine records "" show_expired Demo.in2026)
     = ["A1"]
  /\ keys (filteredLicenses Js.isoParse Demo.engine records "" show_active Demo.in2026)
     = ["B2"; "A01"]
  /\ keys (filteredLicenses Js.isoParse Demo.engine records "" show_expiring Demo.in2026)
     = ["B2"]
  /\ keys (filteredLicenses Js.isoParse Demo.engine records "XY" show_all Demo.in2026)
     = ["B2"]
  /\ keys (filteredLicenses Js.isoParse Demo.engine records "a" show_all Demo.in2026)
     = ["A1"; "A01"].
Proof. repeat split; vm_compute; reflexivity. Qed.

(** A bound record that expired is counted as active and as expired. *)
Lemma stats_samples :
  let st := stats Js.isoParse [Demo.boundExpired; Demo.unbound "A01"] Demo.in2026 in
  Stats.total st = 2 /\ Stats.active st = 1
  /\ Stats.expired st = 1 /\ Stats.available st = 1.
Proof. repeat split; vm_compute; reflexivity. Qed.


(** Three days before it expires a bound license is expiring; four years
    later it is expired. *)
Lemma status_over_time_witness :
  let s := getLicenseStatus Js.isoParse Demo.boundSoon Demo.in2026 in
  let s' := getLicenseStatus Js.isoParse Demo.boundSoon Demo.in2030 in
  lifeStage s <= lifeStage s'
  /\ (s = expired -> s' = expired)
  /\ (lifeStage s' = 0 -> s' = s).
Proof.
  apply (status_over_time Js.isoParse Demo.boundSoon 1767225600000 1900000000000).
  vm_compute. discriminate.
Defined.

Lemma sort_by_expiry_compose_witness :
  let records := [Demo.unbound "A01"; Demo.boundSoon; Demo.boundExpired] in
  let sorted l :=
    sortedLicenses Js.isoParse Js.byteCompare Demo.engine l (byExpiry desc) Demo.in2026 in
  StronglySorted
    (fun a b => directionSign desc * instant Js.isoParse a
                <= directionSign desc * instant Js.isoParse b)
    (sorted records)
  /\ sorted (sorted records) = sorted records
  /\ (forall p, sorted (filter p records) = filter p (sorted records)).
Proof.
  apply (sort_by_expiry_compose Js.isoParse Js.byteCompare Demo.engine).
  repeat constructor; vm_compute; discriminate.
Defined.

Lemma view_shows_current_list_witness :
  let run := dispatch Js.isoParse Js.byteCompare Demo.engine in
  let loaded := run (mount Js.isoParse Js.byteCompare Demo.engine Demo.in2026)
                    (ReplaceLicenses Demo.records25) Demo.in2026 in
  let r := run (run loaded ClickNext Demo.in2026) (TypeSearch "b") Demo.in2026 in
  memoFresh Js.isoParse Js.byteCompare Demo.engine r
  /\ Permutation (memoSorted r) (memoFiltered r)
  /\ (List.length (memoSorted r) <= List.length (licenses (state r)))%nat
  /\ Z.of_nat (List.length (renderedPage r)) <= pageSize (state r)
  /\ (forall R, In R (renderedPage r) ->
                In R (licenses (state r))
                /\ matchesSearch Demo.engine (searchTerm (state r)) R).
Proof.
  cbv zeta. apply (view_shows_current_list Js.isoParse Js.byteCompare Demo.engine).
  repeat (apply reach_dispatch; [| exact I]). apply reach_mount.
Defined.

Lemma paging_buttons_witness :
  let run := dispatch Js.isoParse Js.byteCompare Demo.engine in
  let r := run (mount Js.isoParse Js.byteCompare Demo.engine Demo.in2026)
               (ReplaceLicenses Demo.records25) Demo.in2026 in
  currentPage (state (run r ClickNext Demo.in2026)) = 2
  /\ run r ClickPrev Demo.in2026 = r
  /\ currentPage (state (run (run r ClickNext Demo.in2026) ClickPrev Demo.in2030)) = 1.
Proof.
  cbv zeta.
  set (r := dispatch Js.isoParse Js.byteCompare Demo.engine
              (mount Js.isoParse Js.byteCompare Demo.engine Demo.in2026)
              (ReplaceLicenses Demo.records25) Demo.in2026).
  assert (Hrange : pageInRange r) by (vm_compute; split; discriminate).
  destruct (paging_buttons Js.isoParse Js.byteCompare Demo.engine r Demo.in2026 Demo.in2030 Hrange)
    as (Hnext & _ & _ & Hfirst & _ & _ & _ & _ & Hback).
  split; [rewrite Hnext; vm_compute; reflexivity |].
  split; [apply Hfirst; vm_compute; reflexivity |].
  rewrite Hback; vm_compute; reflexivity.
Defined.

Lemma sort_click_witness :
  let run := dispatch Js.isoParse Js.byteCompare Demo.engine in
  let r := run (mount Js.isoParse Js.byteCompare Demo.engine Demo.in2026)
               (ReplaceLicenses Demo.records25) Demo.in2026 in
  let clicked := run r (ClickSort by_expires_at) Demo.in2026 in
  sortConfig (state clicked) = {| field := by_expires_at; direction := desc |}
  /\ currentPage (state clicked) = currentPage (state r)
  /\ Permutation (memoSorted clicked) (memoSorted r).
Proof.
  cbv zeta.
  set (r := dispatch Js.isoParse Js.byteCompare Demo.engine
              (mount Js.isoParse Js.byteCompare Demo.engine Demo.in2026)
              (ReplaceLicenses Demo.records25) Demo.in2026).
  assert (Hr : reachable Js.isoParse Js.byteCompare Demo.engine r)
    by (apply reach_dispatch; [apply reach_mount | exact I]).
  destruct (sort_click Js.isoParse Js.byteCompare Demo.engine r by_expires_at
              Demo.in2026 Hr)
    as (_ & _ & Hpage & _ & _ & _ & Hperm).
  split; [vm_compute; reflexivity |]. split; [exact Hpage | exact Hperm].
Defined.

(** A license created for the last minute of 2030-01-01 is available in
    2026. *)
Lemma created_license_status_witness :
  let row := {| license_key := "KEY-1";
                expires_at := "2030-01-01T23:59:00.000Z"; hwid := None |} in
  getLicenseStatus Demo.utcParse row Demo.in2026 = available.
Proof.
  cbv zeta.
  destruct (created_license_status Demo.utcParse Demo.isoOf {| message := "Invalid time value" |}
              (Some {| supabaseUrl := "https://x"; supabaseKey := "k" |})
              (Resolved None) Demo.addForm
              {| license_key := "KEY-1";
                 expires_at := "2030-01-01T23:59:00.000Z"; hwid := None |}
              1767225600000)
    as [_ Hstatus].
  - vm_compute. left. reflexivity.
  - apply (Hstatus Demo.lastMinute); vm_compute; reflexivity.
Defined.

(** With no environment variables and an address and a key in the URL, the
    view connects with the client made from them and saves them. *)
Lemma initConnection_priority_witness :
  let sh := initConnection Demo.validUrl Demo.createClient None None
              (Some "https://x.supabase.co") (Some "anon") Demo.freshShell in
  isConnected sh = true
  /\ getSupabaseClient (service sh)
     = Some {| supabaseUrl := "https://x.supabase.co"; supabaseKey := "anon" |}
  /\ getStoredCredentials (service sh)
     = Some {| Credentials.url := "https://x.supabase.co";
               Credentials.key := "anon" |}.
Proof.
  cbv zeta.
  apply (proj1 (proj2 (initConnection_priority Demo.validUrl Demo.createClient
                         None None (Some "https://x.supabase.co") (Some "anon")
                         Demo.freshShell))); reflexivity.
Defined.

(** On page 3 of 3, a search that keeps two pages of records leaves the
    view on page 2. *)
Lemma page_after_action_witness :
  let run := dispatch Js.isoParse Js.byteCompare Demo.engine in
  let loaded := run (mount Js.isoParse Js.byteCompare Demo.engine Demo.in2026)
                    (ReplaceLicenses Demo.records25) Demo.in2026 in
  let page3 := run (run loaded ClickNext Demo.in2026) ClickNext Demo.in2026 in
  currentPage (state (run page3 (TypeSearch "a") Demo.in2026)) = 2.
Proof.
  cbv zeta.
  set (page3 := dispatch Js.isoParse Js.byteCompare Demo.engine _ ClickNext Demo.in2026).
  assert (Hrange : pageInRange page3) by (vm_compute; split; discriminate).
  assert (Hchange : changesResetDeps page3 (TypeSearch "a") = true)
    by (vm_compute; reflexivity).
  rewrite (proj1 (page_after_action Js.isoParse Js.byteCompare Demo.engine page3
                    (TypeSearch "a") Demo.in2026 Hrange) Hchange).
  vm_compute. reflexivity.
Defined.
